(** * The cgrates scheduler ([scheduler/scheduler.go]) in Rocq

    A shallow embedding of the scheduler of the charging engine: the
    statistics windows ([updateActStats]), the queue rebuild
    ([loadActionPlans]), the control loop ([Loop]) and the reload/shutdown
    controller ([restart], [Shutdown]), followed by the properties that the
    design document states about them.

    Conventions.
    - An instant ([time.Time]) is an integer number of nanoseconds on an
      unbounded time line; a [time.Duration] is a signed 64-bit number of
      nanoseconds, and [Sub] saturates as Go's [Time.Sub] does.
    - A Go map is a [gmap]; a map-typed field may hold the nil map, which is
      [None].  Each field holds a map object of its own.
    - What [time.Now()] returns is an argument of the function that calls
      it: one instant per call site, or a [clock] that gives the reading of
      the k-th call where the number of calls depends on the data.
    - An [*ActionTiming] of the queue is modelled by the value it points to;
      every entry of the queue is a pointer of its own.
    - Logging and the goroutines started with [go] are recorded as a list of
      effects, in program order. *)

From Stdlib Require Import ZArith Lia.
From stdpp Require Import base option list gmap strings sorting.

#[local] Set Warnings "-clear-no-such-hyp".

Open Scope Z_scope.

(** ** Time *)

Abbreviation Time := Z (only parsing).
Abbreviation Duration := Z (only parsing).

Definition minDuration : Z := - 2 ^ 63.
Definition maxDuration : Z := 2 ^ 63 - 1.
Definition Second : Z := 1000000000.

(** [t.Sub(u)]: the difference, clamped to the range of [Duration]. *)
Definition Sub (t u : Time) : Duration :=
  if bool_decide (maxDuration < t - u) then maxDuration
  else if bool_decide (t - u < minDuration) then minDuration
  else t - u.

Definition Add (t : Time) (d : Duration) : Time := t + d.
Definition Before (t u : Time) : bool := bool_decide (t < u).
Definition Equal (t u : Time) : bool := bool_decide (t = u).

(** ** Locks *)

(** The state of a [sync.RWMutex]: held by a writer, or by [readers]
    readers. *)
Record RWMutex := mkMutex { writer : bool; readers : nat }.

Definition unlockedMutex : RWMutex := mkMutex false 0.

Definition mutexFree (m : RWMutex) : bool :=
  negb (writer m) && bool_decide (readers m = 0%nat).

(** [m.Lock()] returns only on a free mutex ([None]: the caller blocks). *)
Definition Lock (m : RWMutex) : option RWMutex :=
  if mutexFree m then Some (mkMutex true (readers m)) else None.

(** [m.Unlock()]; unlocking a mutex no writer holds is a fatal error
    ([None]). *)
Definition Unlock (m : RWMutex) : option RWMutex :=
  if writer m then Some (mkMutex false (readers m)) else None.

(** ** The statistics windows *)

(** [map[string]map[time.Time]bool] *)
Abbreviation StatsMap := (gmap string (gmap Z bool)) (only parsing).

(** [engine.Action]: the scheduler reads its [ActionType] only. *)
Record Action := mkAction { ActionType : string }.

(** The keys a [range] over a map visits. *)
Definition rangeKeys {K : Type} `{Countable K} {V : Type} (m : gmap K V) : list K :=
  (map_to_list m).*1.

Section Prune.

Variables (now : Z) (interval : Z).

(** Lines 63-68, one pass of the inner loop for timestamp [t] of kind
    [aType].  [statsMp[aType]] is looked up again by [delete] and by
    [len]; after the kind was deleted it reads as the nil map, on which
    [delete] does nothing and [len] is 0. *)
Definition pruneTimestamp (aType : string) (statsMp : StatsMap) (t : Z) : StatsMap :=
  if bool_decide (Sub now t > interval) then
    let statsMp1 := alter (delete t) aType statsMp in
    if bool_decide (size (default ∅ (statsMp1 !! aType)) = 0%nat)
    then delete aType statsMp1
    else statsMp1
  else statsMp.

(** Lines 62-69: the inner loop ranges over the timestamps of
    [statsMp[aType]], read once when the loop starts. *)
Definition pruneKind (statsMp : StatsMap) (aType : string) : StatsMap :=
  foldl (pruneTimestamp aType) statsMp (rangeKeys (default ∅ (statsMp !! aType))).

(** Lines 61-70: the outer loop over the action kinds. *)
Definition pruneStats (statsMp : StatsMap) : StatsMap :=
  foldl pruneKind statsMp (rangeKeys statsMp).

(** Lines 74-77 on an allocated window. *)
Definition insertStat (aType : string) (statsMp : StatsMap) : StatsMap :=
  let statsMp1 :=
    match statsMp !! aType with
    | Some _ => statsMp
    | None => <[aType := ∅]> statsMp
    end in
  alter (<[now := true]>) aType statsMp1.

End Prune.

(** ** The collaborators of the scheduler *)

(** Modelled from the spec: the ScheduledItem ([engine.ActionTiming], whose
    declaration and methods are in package [engine]).  The recurrence
    descriptor [Timing] is nil or opaque; it is represented by what the
    scheduler consumes of it, the next start it yields for a reference
    instant.  [stCache] is the memoized next start, [None] once
    invalidated. *)
Record ActionTiming := mkActionTiming {
  ActionsID : string;
  Timing : option (Z → Z);
  asap : bool;
  stCache : option Z;
  accountIDs : list string;
  actionPlanID : string
}.

(** The zero [time.Time], which an item without descriptor resolves to. *)
Definition zeroTime : Z := 0.

(** Modelled from the spec: [GetNextStartTime] ("a cached next-start-time,
    invalidated explicitly, recomputed lazily").  It returns the memoized
    instant when there is one, and otherwise resolves the descriptor against
    [now] and memoizes the result in the item. *)
Definition GetNextStartTime (at0 : ActionTiming) (now : Z) : Z * ActionTiming :=
  match stCache at0 with
  | Some t => (t, at0)
  | None =>
      match Timing at0 with
      | None => (zeroTime, at0)
      | Some next =>
          let t := next now in
          (t, mkActionTiming (ActionsID at0) (Timing at0) (asap at0) (Some t)
                (accountIDs at0) (actionPlanID at0))
      end
  end.

(** Modelled from the spec: [ResetStartTimeCache], the explicit invalidate
    operation. *)
Definition ResetStartTimeCache (at0 : ActionTiming) : ActionTiming :=
  mkActionTiming (ActionsID at0) (Timing at0) (asap at0) None
    (accountIDs at0) (actionPlanID at0).

(** Modelled from the spec: [IsASAP], the ASAP flag of the item. *)
Definition IsASAP (at0 : ActionTiming) : bool := asap at0.

(** Modelled from the spec: [SetAccountIDs] and [SetActionPlanID] stamp the
    item with the account set and the identifier of its plan. *)
Definition SetAccountIDs (ids : list string) (at0 : ActionTiming) : ActionTiming :=
  mkActionTiming (ActionsID at0) (Timing at0) (asap at0) (stCache at0)
    ids (actionPlanID at0).

Definition SetActionPlanID (id : string) (at0 : ActionTiming) : ActionTiming :=
  mkActionTiming (ActionsID at0) (Timing at0) (asap at0) (stCache at0)
    (accountIDs at0) id.

(** [engine.ActionPlan], as far as the rebuild reads it. *)
Record ActionPlan := mkActionPlan {
  Id : string;
  AccountIDs : list string;
  ActionTimings : list ActionTiming
}.

(** [engine.Task] *)
Record Task := mkTask { taskActionsID : string; taskAccountID : string }.

Inductive error :=
| ErrNotFound
| ErrOther (msg : string).

(** [err != utils.ErrNotFound] *)
Definition isNotFound (e : error) : bool :=
  match e with
  | ErrNotFound => true
  | ErrOther _ => false
  end.

(** Modelled from the spec: the storage collaborator
    ([engine.RatingStorage], an interface of package [engine]), by the
    answers it is going to give.  [popAnswers] are the results of the coming
    calls of [PopTask], each the Go pair [(task, err)].  [plansAnswer] is the
    answer of [GetAllActionPlans], "sequence<ActionPlan> | Error": the plans
    in the order the [range] of line 158 visits them (a plan may be a nil
    pointer), or an error. *)
Record Storage := mkStorage {
  popAnswers : list (option Task * option error);
  plansAnswer : list (option ActionPlan) + error
}.

(** A storage with no answer left reports, as the store contract says, that
    nothing is found. *)
Definition PopTask (st : Storage) : (option Task * option error) * Storage :=
  match popAnswers st with
  | [] => ((None, Some ErrNotFound), st)
  | r :: rest => (r, mkStorage rest (plansAnswer st))
  end.

(** The Go pair [(actionPlans, err)]. *)
Definition GetAllActionPlans (st : Storage) : list (option ActionPlan) * option error :=
  match plansAnswer st with
  | inl plans => (plans, None)
  | inr e => ([], Some e)
  end.

(** ** The scheduler *)

(** A [time.Timer]: the duration it was armed for and whether [Stop] was
    called on it. *)
Record Timer := mkTimer { timerD : Z; timerStopped : bool }.

Definition NewTimer (d : Z) : Timer := mkTimer d false.
Definition StopTimer (t : Timer) : Timer := mkTimer (timerD t) true.

(** The [Scheduler] struct.  [restartLoop] is an unbuffered channel: it holds
    no value, a send and a receive complete together (see [System] below).
    The channels [actSucessChan] and [actFailedChan] are only handed to
    [Execute].  The embedded queue lock serialises the body of a loop
    iteration and the rebuild, each of which is one step of the model. *)
Record Scheduler := mkScheduler {
  queue : list ActionTiming;
  timer : option Timer;
  storage : Storage;
  schedulerStarted : bool;
  actStatsInterval : Z;
  aSMux : RWMutex;
  aFMux : RWMutex;
  actSuccessStats : option (gmap string (gmap Z bool));
  actFailedStats : option (gmap string (gmap Z bool))
}.

Definition withQueue (q : list ActionTiming) (s : Scheduler) : Scheduler :=
  mkScheduler q (timer s) (storage s) (schedulerStarted s) (actStatsInterval s)
    (aSMux s) (aFMux s) (actSuccessStats s) (actFailedStats s).

Definition withTimer (t : option Timer) (s : Scheduler) : Scheduler :=
  mkScheduler (queue s) t (storage s) (schedulerStarted s) (actStatsInterval s)
    (aSMux s) (aFMux s) (actSuccessStats s) (actFailedStats s).

Definition withStorage (st : Storage) (s : Scheduler) : Scheduler :=
  mkScheduler (queue s) (timer s) st (schedulerStarted s) (actStatsInterval s)
    (aSMux s) (aFMux s) (actSuccessStats s) (actFailedStats s).

Definition withStarted (b : bool) (s : Scheduler) : Scheduler :=
  mkScheduler (queue s) (timer s) (storage s) b (actStatsInterval s)
    (aSMux s) (aFMux s) (actSuccessStats s) (actFailedStats s).

(** The window a call of [updateActStats] works on. *)
Definition selectedStats (isFailed : bool) (s : Scheduler) : option (gmap string (gmap Z bool)) :=
  if isFailed then actFailedStats s else actSuccessStats s.

Definition otherStats (isFailed : bool) (s : Scheduler) : option (gmap string (gmap Z bool)) :=
  if isFailed then actSuccessStats s else actFailedStats s.

Definition selectedMux (isFailed : bool) (s : Scheduler) : RWMutex :=
  if isFailed then aFMux s else aSMux s.

(** [statsMp] is the map object the selected field holds, so what the
    function does to [statsMp] is seen through the field. *)
Definition withSelectedStats (isFailed : bool) (w : option (gmap string (gmap Z bool)))
    (s : Scheduler) : Scheduler :=
  if isFailed
  then mkScheduler (queue s) (timer s) (storage s) (schedulerStarted s)
         (actStatsInterval s) (aSMux s) (aFMux s) (actSuccessStats s) w
  else mkScheduler (queue s) (timer s) (storage s) (schedulerStarted s)
         (actStatsInterval s) (aSMux s) (aFMux s) w (actFailedStats s).

(** How a call ends: it returns, it panics, or it blocks for ever. *)
Inductive Outcome := Returned | Panicked | Blocked.

(** What a call of [updateActStats] leaves behind: the scheduler, the local
    variable [mux], and how the call ended. *)
Record StatsExit := mkStatsExit {
  exitSched : Scheduler;
  exitMux : RWMutex;
  exitHow : Outcome
}.

(** [updateActStats] (lines 52-79).  [mux := s.aSMux] copies the mutex value
    into a local variable, which is what [Lock] and [Unlock] then work on;
    a [range] over the nil map does nothing, and an assignment into it
    (line 75) panics. *)
Definition updateActStats (s : Scheduler) (act : option Action) (isFailed : bool)
    (now : Z) : StatsExit :=
  let mux := selectedMux isFailed s in
  let statsMp := selectedStats isFailed s in
  match Lock mux with
  | None => mkStatsExit s mux Blocked
  | Some mux1 =>
      let statsMp1 := pruneStats now (actStatsInterval s) <$> statsMp in
      let s1 := withSelectedStats isFailed statsMp1 s in
      match act with
      | None => mkStatsExit s1 mux1 Returned
      | Some a =>
          match statsMp1 with
          | None => mkStatsExit s1 mux1 Panicked
          | Some m =>
              let s2 := withSelectedStats isFailed
                          (Some (insertStat now (ActionType a) m)) s1 in
              match Unlock mux1 with
              | Some mux2 => mkStatsExit s2 mux2 Returned
              | None => mkStatsExit s2 mux1 Panicked
              end
          end
      end
  end.

(** [NewScheduler] before its call of [Reload]: the struct literal of lines
    44-47 sets the channel and the storage, every other field has its zero
    value. *)
Definition newSchedulerLiteral (st : Storage) : Scheduler :=
  mkScheduler [] None st false 0 unlockedMutex unlockedMutex None None.

(** ** Effects *)

Inductive LogMsg :=
| MsgQueueLength (n : nat)
| MsgAction (id : string)
| MsgTimeToNext (id : string) (d : Z)
| MsgTimeForAction (id : string)
| MsgCannotGetPlans (e : error)
| MsgProcessing (n : nat)
| MsgNilTiming (at0 : ActionTiming)
| MsgQueued (n : nat).

(** What a function does besides changing the scheduler: a log line, or a
    goroutine started with [go] and not waited for. *)
Inductive Effect :=
| Info (m : LogMsg)
| Warning (m : LogMsg)
| GoExecute (a0 : ActionTiming)
| GoExecuteTask (t : Task).

(** ** The order of the queue *)

(** The next start of an item as [GetNextStartTime] reports it at [now]. *)
Definition resolvedNextStart (now : Z) (at0 : ActionTiming) : Z :=
  (GetNextStartTime at0 now).1.

(** Modelled from the spec: [sort.Sort(s.queue)].  The comparison of
    [engine.ActionTimingPriorityList] and the sorting routine are outside
    package [scheduler]; the spec orders the queue "ascending by resolved
    next-start-time relative to now" and leaves the order among equal due
    times to that comparison.  The model sorts by [dueOrder], with one
    reading [now] of the clock for the whole sort. *)
Definition dueOrder (now : Z) (a b : ActionTiming) : Prop :=
  resolvedNextStart now a ≤ resolvedNextStart now b.

#[global] Instance dueOrder_dec now a b : Decision (dueOrder now a b) :=
  decide (resolvedNextStart now a ≤ resolvedNextStart now b).

Definition sortQueue (now : Z) (q : list ActionTiming) : list ActionTiming :=
  merge_sort (dueOrder now) q.

(** ** Reload: [loadActionPlans] *)

(** [err != nil || task == nil] (line 140) *)
Definition drainStops (r : option Task * option error) : bool :=
  match r with
  | (Some _, None) => false
  | _ => true
  end.

(** Lines 138-149 as the calling goroutine runs them: every popped task is
    handed to a goroutine; the loop ends at the first answer with an error or
    without a task.  The permits of [limit] are the matter of [DrainState]
    below. *)
Fixpoint drainLoop (answers : list (option Task * option error))
    : list Task * list (option Task * option error) :=
  match answers with
  | [] => ([], [])
  | (Some task, None) :: rest =>
      let '(tasks, unread) := drainLoop rest in (task :: tasks, unread)
  | _ :: rest => ([], rest)
  end.

Definition drainTasks (st : Storage) : list Task * Storage :=
  let '(tasks, unread) := drainLoop (popAnswers st) in
  (tasks, mkStorage unread (plansAnswer st)).

(** Lines 163-177 for one item of [plan].  The accumulator holds the queue
    under construction, the number of calls of [time.Now()] made so far
    ([clock k] is what the [k]-th call returns) and the log. *)
Definition scanItem (clock : nat → Z) (plan : ActionPlan)
    (acc : list ActionTiming * nat * list Effect) (at0 : ActionTiming)
    : list ActionTiming * nat * list Effect :=
  let '(q, tick, log) := acc in
  match Timing at0 with
  | None => (q, tick, log ++ [Warning (MsgNilTiming at0)])
  | Some _ =>
      if IsASAP at0 then acc
      else
        let now := clock tick in
        let '(start, at1) := GetNextStartTime at0 now in
        if Before start now then (q, S tick, log)
        else (q ++ [SetActionPlanID (Id plan) (SetAccountIDs (AccountIDs plan) at1)],
              S tick, log)
  end.

(** Lines 158-180 for one plan. *)
Definition scanPlan (clock : nat → Z) (acc : list ActionTiming * nat * list Effect)
    (p : option ActionPlan) : list ActionTiming * nat * list Effect :=
  match p with
  | None => acc
  | Some plan => foldl (scanItem clock plan) acc (ActionTimings plan)
  end.

(** Lines 151-154. *)
Definition plansWarning (err : option error) : list Effect :=
  match err with
  | Some e => if isNotFound e then [] else [Warning (MsgCannotGetPlans e)]
  | None => []
  end.

(** [loadActionPlans] (lines 132-183). *)
Definition loadActionPlans (clock : nat → Z) (s : Scheduler) : Scheduler * list Effect :=
  let '(tasks, st1) := drainTasks (storage s) in
  let '(actionPlans, err) := GetAllActionPlans st1 in
  let '(q, tick, log) := foldl (scanPlan clock) ([], 0%nat, []) actionPlans in
  let q1 := sortQueue (clock tick) q in
  (withQueue q1 (withStorage st1 s),
   (GoExecuteTask <$> tasks) ++ plansWarning err
     ++ [Info (MsgProcessing (length actionPlans))] ++ log
     ++ [Info (MsgQueued (length q1))]).

(** ** The loop *)

(** Where the goroutine that runs [Loop] stands. *)
Inductive LoopPC :=
| LoopEntry                    (* line 82 *)
| LoopTop                      (* line 84, the test of the flag *)
| LoopParked                   (* line 88, in the receive from restartLoop *)
| LoopWaiting (id : string)    (* line 116, in the select *)
| LoopPanicked                 (* index out of range at line 92 *)
| LoopExited.                  (* after the break of line 85 *)

(** Lines 90-123: the rest of an iteration, from the log line after the
    empty-queue loop to the end of the body.  [now1] and [now2] are the
    readings of lines 94 and 101, [nowS] the one of the sort.  [a0] is a
    pointer, so what [GetNextStartTime] memoizes in it is seen in the
    queue. *)
Definition loopBody (s : Scheduler) (now1 now2 nowS : Z)
    : LoopPC * Scheduler * list Effect :=
  match queue s with
  | [] => (LoopPanicked, s, [Info (MsgQueueLength 0)])
  | a0 :: rest =>
      let pre := [Info (MsgQueueLength (length (queue s)));
                  Info (MsgAction (ActionsID a0))] in
      let '(start, a1) := GetNextStartTime a0 now1 in
      if Equal start now1 || Before start now1 then
        let a2 := ResetStartTimeCache a1 in
        let now := Add now2 Second in
        let '(start2, a3) := GetNextStartTime a2 now in
        if Before start2 now
        then (LoopTop, withQueue (drop 1 (a3 :: rest)) s, pre ++ [GoExecute a1])
        else (LoopTop,
              withQueue (sortQueue nowS (drop 1 ((a3 :: rest) ++ [a3]))) s,
              pre ++ [GoExecute a1])
      else
        let '(next, a2) := GetNextStartTime a1 now1 in
        let d := Sub next now1 in
        (LoopWaiting (ActionsID a0),
         withTimer (Some (NewTimer d)) (withQueue (a2 :: rest) s),
         pre ++ [Info (MsgTimeToNext (ActionsID a0) d)])
  end.

(** Lines 87-89, from the test of the inner loop: an empty queue sends the
    goroutine (back) into the receive. *)
Definition loopFromEmptyTest (s : Scheduler) (now1 now2 nowS : Z)
    : LoopPC * Scheduler * list Effect :=
  if bool_decide (length (queue s) = 0%nat) then (LoopParked, s, [])
  else loopBody s now1 now2 nowS.

(** Lines 84-86, the top of the outer loop. *)
Definition loopFromTop (s : Scheduler) (now1 now2 nowS : Z)
    : LoopPC * Scheduler * list Effect :=
  if negb (schedulerStarted s) then (LoopExited, s, [])
  else loopFromEmptyTest s now1 now2 nowS.

(** A step the loop takes on its own. *)
Definition loopRun (pc : LoopPC) (s : Scheduler) (now1 now2 nowS : Z)
    : option (LoopPC * Scheduler * list Effect) :=
  match pc with
  | LoopEntry => Some (LoopTop, withStarted true s, [])
  | LoopTop => Some (loopFromTop s now1 now2 nowS)
  | _ => None
  end.

(** The loop takes a value from [restartLoop]: in the empty-queue loop it
    goes back to the test of line 87, in the select to the top of the outer
    loop. *)
Definition loopReceive (pc : LoopPC) (s : Scheduler) (now1 now2 nowS : Z)
    : option (LoopPC * Scheduler * list Effect) :=
  match pc with
  | LoopParked => Some (loopFromEmptyTest s now1 now2 nowS)
  | LoopWaiting _ => Some (LoopTop, s, [])
  | _ => None
  end.

(** The armed timer fires while the loop is in the select. *)
Definition loopTimer (pc : LoopPC) (s : Scheduler)
    : option (LoopPC * Scheduler * list Effect) :=
  match pc, timer s with
  | LoopWaiting id, Some t =>
      if timerStopped t then None
      else Some (LoopTop, s, [Info (MsgTimeForAction id)])
  | _, _ => None
  end.

(** Whether the loop is in a receive from [restartLoop]. *)
Definition receiving (pc : LoopPC) : bool :=
  match pc with
  | LoopParked | LoopWaiting _ => true
  | _ => false
  end.

(** What happens to the goroutine of [Loop] next: it runs on to its next
    blocking point (with the readings of the clock it takes on the way), a
    value arrives on [restartLoop], or the timer fires. *)
Inductive LoopInput :=
| Proceed (now1 now2 nowS : Z)
| Signal (now1 now2 nowS : Z)
| Expire.

(** [Loop] (lines 81-125) along a schedule of inputs; an input the goroutine
    cannot take where it stands leaves it there. *)
Fixpoint Loop (inputs : list LoopInput) (pc : LoopPC) (s : Scheduler)
    : LoopPC * Scheduler * list Effect :=
  match inputs with
  | [] => (pc, s, [])
  | i :: rest =>
      let next :=
        match i with
        | Proceed now1 now2 nowS => loopRun pc s now1 now2 nowS
        | Signal now1 now2 nowS => loopReceive pc s now1 now2 nowS
        | Expire => loopTimer pc s
        end in
      match next with
      | Some (pc1, s1, log1) =>
          let '(pc2, s2, log2) := Loop rest pc1 s1 in (pc2, s2, log1 ++ log2)
      | None => Loop rest pc s
      end
  end.

(** ** The loop and a controller call, side by side *)

(** Where the goroutine that runs [Reload] (that is [loadActionPlans], then
    [restart]) or [Shutdown] stands. *)
Inductive CtlPC :=
| CtlReload          (* Reload, line 128 *)
| CtlRestartTest     (* restart, line 186 *)
| CtlRestartSend     (* restart, line 187, in the send on restartLoop *)
| CtlRestartStop     (* restart, line 189 *)
| CtlShutdown        (* Shutdown, line 202 *)
| CtlShutdownSend    (* Shutdown, line 203, in the send on restartLoop *)
| CtlShutdownStop    (* Shutdown, line 204 *)
| CtlReturned.

Record System := mkSystem {
  sched : Scheduler;
  loopPC : LoopPC;
  ctlPC : CtlPC;
  trace : list Effect
}.

(** [if s.timer != nil { s.timer.Stop() }] *)
Definition stopTimer (s : Scheduler) : Scheduler :=
  withTimer (StopTimer <$> timer s) s.

(** A step the controller takes on its own.  In a send on [restartLoop] it
    has none: the channel was made without buffer (line 45), and neither
    send is in a [select]. *)
Definition ctlRun (clock : nat → Z) (sys : System) : option System :=
  match ctlPC sys with
  | CtlReload =>
      let '(s, log) := loadActionPlans clock (sched sys) in
      Some (mkSystem s (loopPC sys) CtlRestartTest (trace sys ++ log))
  | CtlRestartTest =>
      Some (mkSystem (sched sys) (loopPC sys)
              (if schedulerStarted (sched sys) then CtlRestartSend else CtlRestartStop)
              (trace sys))
  | CtlShutdown =>
      Some (mkSystem (withStarted false (sched sys)) (loopPC sys) CtlShutdownSend
              (trace sys))
  | CtlRestartStop | CtlShutdownStop =>
      Some (mkSystem (stopTimer (sched sys)) (loopPC sys) CtlReturned (trace sys))
  | CtlRestartSend | CtlShutdownSend | CtlReturned => None
  end.

Definition afterSend (pc : CtlPC) : option CtlPC :=
  match pc with
  | CtlRestartSend => Some CtlRestartStop
  | CtlShutdownSend => Some CtlShutdownStop
  | _ => None
  end.

(** The send of the controller and a receive of the loop complete
    together. *)
Definition handoff (now1 now2 nowS : Z) (sys : System) : option System :=
  match afterSend (ctlPC sys), loopReceive (loopPC sys) (sched sys) now1 now2 nowS with
  | Some c, Some (pc, s, log) => Some (mkSystem s pc c (trace sys ++ log))
  | _, _ => None
  end.

Definition loopMove (now1 now2 nowS : Z) (sys : System) : option System :=
  match loopRun (loopPC sys) (sched sys) now1 now2 nowS with
  | Some (pc, s, log) => Some (mkSystem s pc (ctlPC sys) (trace sys ++ log))
  | None => None
  end.

Definition timerMove (sys : System) : option System :=
  match loopTimer (loopPC sys) (sched sys) with
  | Some (pc, s, log) => Some (mkSystem s pc (ctlPC sys) (trace sys ++ log))
  | None => None
  end.

(** The steps in which the controller gets on. *)
Inductive ctlStep : System → System → Prop :=
| ctl_run clock sys sys' :
    ctlRun clock sys = Some sys' → ctlStep sys sys'
| ctl_handoff now1 now2 nowS sys sys' :
    handoff now1 now2 nowS sys = Some sys' → ctlStep sys sys'.

(** All steps of the two goroutines. *)
Inductive step : System → System → Prop :=
| step_loop now1 now2 nowS sys sys' :
    loopMove now1 now2 nowS sys = Some sys' → step sys sys'
| step_timer sys sys' :
    timerMove sys = Some sys' → step sys sys'
| step_ctl sys sys' :
    ctlStep sys sys' → step sys sys'.

(** ** The drain and its permits *)

(** [limit := make(chan bool, 10)] *)
Definition limitCap : nat := 10.

Inductive DrainPC :=
| DrainPop                    (* line 139 *)
| DrainAcquire (task : Task)  (* line 143, in the send on limit *)
| DrainGo (task : Task)       (* line 144 *)
| DrainOver.                  (* after the break of line 141 *)

(** The drain of one call of [loadActionPlans]: the storage, the number of
    values in the buffer of [limit], the tasks whose goroutine was started
    and has not yet taken its value back from [limit], and where the calling
    goroutine stands. *)
Record DrainState := mkDrain {
  drainStorage : Storage;
  limit : nat;
  inFlight : list Task;
  drainPC : DrainPC
}.

Definition drainStart (st : Storage) : DrainState := mkDrain st 0 [] DrainPop.

(** A step of the calling goroutine; a send on the full channel has none. *)
Definition drainRun (d : DrainState) : option DrainState :=
  match drainPC d with
  | DrainPop =>
      match PopTask (drainStorage d) with
      | ((Some task, None), st) =>
          Some (mkDrain st (limit d) (inFlight d) (DrainAcquire task))
      | (_, st) => Some (mkDrain st (limit d) (inFlight d) DrainOver)
      end
  | DrainAcquire task =>
      if bool_decide (limit d < limitCap)%nat
      then Some (mkDrain (drainStorage d) (S (limit d)) (inFlight d) (DrainGo task))
      else None
  | DrainGo task =>
      Some (mkDrain (drainStorage d) (limit d) (inFlight d ++ [task]) DrainPop)
  | DrainOver => None
  end.

(** The goroutine of the [i]-th task in flight ends [task.Execute()] and
    takes a value from [limit] (lines 146-147). *)
Definition drainFinish (i : nat) (d : DrainState) : option DrainState :=
  match inFlight d !! i, limit d with
  | Some _, S n => Some (mkDrain (drainStorage d) n (delete i (inFlight d)) (drainPC d))
  | _, _ => None
  end.

Inductive drainStep : DrainState → DrainState → Prop :=
| drain_run d d' : drainRun d = Some d' → drainStep d d'
| drain_finish i d d' : drainFinish i d = Some d' → drainStep d d'.

(** The value sent at line 143 for a goroutine that line 144 has not started
    yet. *)
Definition permitInHand (pc : DrainPC) : nat :=
  match pc with
  | DrainGo _ => 1
  | _ => 0
  end.

(** The buffer of [limit] holds one value per task in flight, and one more
    between lines 143 and 144; it never holds more than its capacity. *)
Definition drainInv (d : DrainState) : Prop :=
  (length (inFlight d) + permitInHand (drainPC d) = limit d)%nat
  ∧ (limit d ≤ limitCap)%nat.

(** The controller is in [Shutdown] or has returned from it. *)
Definition inShutdown (pc : CtlPC) : bool :=
  match pc with
  | CtlShutdown | CtlShutdownSend | CtlShutdownStop | CtlReturned => true
  | _ => false
  end.

(** The loop is in the receive of line 88, the queue is empty, and the
    controller is in [Shutdown] or back from it. *)
Definition parkedOnEmpty (sys : System) : Prop :=
  queue (sched sys) = [] ∧ loopPC sys = LoopParked ∧ inShutdown (ctlPC sys) = true
  ∧ (ctlPC sys ≠ CtlShutdown → schedulerStarted (sched sys) = false).

(** ** Construction *)

(** [NewScheduler] (lines 43-50): the literal, then [Reload].  The flag of
    the literal is false, so [restart] sends nothing and only looks at the
    timer. *)
Definition NewScheduler (clock : nat → Z) (st : Storage) : Scheduler * list Effect :=
  let '(s, log) := loadActionPlans clock (newSchedulerLiteral st) in
  (stopTimer s, log).

(** ** The queue in the words of the design document *)

(** "For every adjacent pair of positions k and k+1,
    resolvedNextStart(Q[k]) ≤ resolvedNextStart(Q[k+1])." *)
Definition ascending (now : Z) (q : list ActionTiming) : Prop :=
  ∀ k a b, q !! k = Some a → q !! S k = Some b →
    resolvedNextStart now a ≤ resolvedNextStart now b.

(** An item passes the three tests of the rebuild at the reading [now]: its
    descriptor is not nil, it is not ASAP, and its next start is not
    strictly before [now]. *)
Definition admissible (now : Z) (at0 : ActionTiming) : Prop :=
  Timing at0 ≠ None ∧ IsASAP at0 = false ∧ ¬ resolvedNextStart now at0 < now.

(** What the rebuild appends for an item [at0] of [plan] read at [now]: the
    item with its next start memoized, stamped with the accounts and the
    identifier of the plan. *)
Definition stamped (plan : ActionPlan) (now : Z) (at0 : ActionTiming) : ActionTiming :=
  SetActionPlanID (Id plan) (SetAccountIDs (AccountIDs plan) (GetNextStartTime at0 now).2).

(** Every item of a queue comes from an admissible item of one of the
    [plans], read at some reading of the [clock]. *)
Definition fromPlans (clock : nat → Z) (plans : list (option ActionPlan))
    (q : list ActionTiming) : Prop :=
  ∀ x, x ∈ q →
    ∃ plan at0 k, Some plan ∈ plans ∧ at0 ∈ ActionTimings plan
      ∧ admissible (clock k) at0 ∧ x = stamped plan (clock k) at0.

(** The items whose action a stretch of effects dispatches, in order. *)
Definition dispatches (log : list Effect) : list ActionTiming :=
  omap (λ e, match e with GoExecute a => Some a | _ => None end) log.

(** The tasks a stretch of effects hands to goroutines, in order. *)
Definition taskDispatches (log : list Effect) : list Task :=
  omap (λ e, match e with GoExecuteTask t => Some t | _ => None end) log.

(** The warnings in a stretch of effects. *)
Definition warnings (log : list Effect) : list LogMsg :=
  omap (λ e, match e with Warning m => Some m | _ => None end) log.

(** ** The scenario of the design document *)

(** "Three items A (due in 5s), B (due in 1s, one-shot), C (due in 10s)":
    A and C recur with their period, B has a single occurrence. *)
Definition every (period : Z) : Z → Z := λ now, (now `div` period + 1) * period.
Definition once (t : Z) : Z → Z := λ _, t.

Definition itemA : ActionTiming :=
  mkActionTiming "A" (Some (every (5 * Second))) false None [] "".
Definition itemB : ActionTiming :=
  mkActionTiming "B" (Some (once Second)) false None [] "".
Definition itemC : ActionTiming :=
  mkActionTiming "C" (Some (every (10 * Second))) false None [] "".

Definition planABC : ActionPlan := mkActionPlan "plan" ["acc"] [itemA; itemB; itemC].

Definition storageABC : Storage := mkStorage [] (inl [Some planABC]).

(** A clock that stands at the origin of the scenario. *)
Definition clock0 : nat → Z := λ _, 0.

Definition schedABC : Scheduler := (NewScheduler clock0 storageABC).1.

(** The scheduler of the scenario once B has fired and was dropped, with the
    loop running: A (memoized at 5s) and C (memoized at 10s) are queued. *)
Definition schedAC : Scheduler :=
  mkScheduler [stamped planABC 0 itemA; stamped planABC 0 itemC] None storageABC
    true 0 unlockedMutex unlockedMutex None None.

(** A scheduler whose storage answers [GetAllActionPlans] with the
    not-found error, and has two tasks, a failing pop and a third task. *)
Definition task1 : Task := mkTask "act1" "acc1".
Definition task2 : Task := mkTask "act2" "acc2".
Definition task3 : Task := mkTask "act3" "acc3".

Definition storageNotFound : Storage :=
  mkStorage [(Some task1, None); (Some task2, None);
             (None, Some (ErrOther "timeout")); (Some task3, None)]
    (inr ErrNotFound).

Definition schedNotFound : Scheduler := newSchedulerLiteral storageNotFound.

(** A storage with a backlog of twelve tasks. *)
Definition storageBacklog : Storage :=
  mkStorage (replicate 12 (Some task1, None)) (inl []).

(** The drain of that backlog at the moment ten goroutines are in flight and
    the caller stands in the send for the eleventh task. *)
Definition drainFull : DrainState :=
  mkDrain (mkStorage [(Some task1, None)] (inl [])) 10 (replicate 10 task1)
    (DrainAcquire task1).

(** The loop parked on the empty queue of a started scheduler, and
    [Shutdown] called. *)
Definition sysParkedShutdown : System :=
  mkSystem (withStarted true (newSchedulerLiteral (mkStorage [] (inl []))))
    LoopParked CtlShutdown [].

(** The same system once [Shutdown] has returned. *)
Definition sysParkedAfterShutdown : System :=
  mkSystem (newSchedulerLiteral (mkStorage [] (inl []))) LoopParked CtlReturned [].

(** The loop of the scenario at the top of its next pass, after it fired an
    item, and a reload in its send. *)
Definition sysReloadDuringFiring : System :=
  mkSystem schedAC LoopTop CtlRestartSend [].

(** The loop of the scenario waiting for the deadline of A, and a reload in
    its send. *)
Definition sysReloadDuringWait : System :=
  mkSystem schedAC (LoopWaiting "A") CtlRestartSend [].

(** ** The pruning in the words of the design document *)

(** A timestamp is stale when it is "older than the configured retention
    interval relative to now". *)
Definition stale (now interval t : Z) : Prop := Sub now t > interval.

#[global] Instance stale_dec now interval t : Decision (stale now interval t) :=
  decide (Sub now t > interval).

(** What one pass of lines 63-68 does to the timestamps of its kind. *)
Definition pruneEntryStep (now interval : Z) (e : option (gmap Z bool)) (t : Z)
    : option (gmap Z bool) :=
  if bool_decide (Sub now t > interval) then
    match e with
    | Some ts =>
        if bool_decide (size (delete t ts) = 0%nat) then None else Some (delete t ts)
    | None => None
    end
  else e.

(** The timestamps of [ts] left once the stale ones among [l] are removed. *)
Definition keptAfter (now interval : Z) (l : list Z) (ts : gmap Z bool) : gmap Z bool :=
  filter (λ kv, ¬ (stale now interval kv.1 ∧ kv.1 ∈ l)) ts.

(** "Remove every timestamp older than the retention interval; remove the
    action-kind entry entirely if it becomes empty." *)
Definition prunedSet (now interval : Z) (ts : gmap Z bool) : option (gmap Z bool) :=
  let kept := filter (λ kv, ¬ stale now interval kv.1) ts in
  if decide (kept = ∅ ∧ ts ≠ ∅) then None else Some kept.

Definition prunedWindow (now interval : Z) (w : gmap string (gmap Z bool))
    : gmap string (gmap Z bool) :=
  omap (prunedSet now interval) w.

(** ** More of the statistics windows *)

(** Go leaves the order of a [range] over a map open.  [rangeOrder l m]: the
    list [l] is one of the orders in which a [range] can visit the keys of
    [m], each key once. *)
Definition rangeOrder {K : Type} `{Countable K} {V : Type} (l : list K) (m : gmap K V) : Prop :=
  NoDup l ∧ ∀ k, k ∈ l ↔ is_Some (m !! k).

(** Lines 61-70 with the two orders made explicit: the outer loop visits the
    action kinds in the order [kinds], the inner loop the timestamps of kind
    [aType] in the order [stamps aType]. *)
Definition pruneStatsIn (now interval : Z) (kinds : list string) (stamps : string → list Z)
    (statsMp : gmap string (gmap Z bool)) : gmap string (gmap Z bool) :=
  foldl (λ m aType, foldl (pruneTimestamp now interval aType) m (stamps aType))
    statsMp kinds.

(** The window (nil or allocated) holds timestamp [t] under kind [k]. *)
Definition windowHas (w : option (gmap string (gmap Z bool))) (k : string) (t : Z) : Prop :=
  ∃ m ts, w = Some m ∧ m !! k = Some ts ∧ is_Some (ts !! t).

(** No kind of the window is there with an empty set of timestamps. *)
Definition noEmptyKind (m : gmap string (gmap Z bool)) : Prop :=
  ∀ k ts, m !! k = Some ts → ts ≠ ∅.

(** A scheduler with an allocated success window: two executions of a log
    action at the instants 1 and 100, one of a top-up at 100, and a retention
    interval of 50. *)
Definition windowSample : gmap string (gmap Z bool) :=
  {[ "*log" := {[ 1 := true; 100 := true ]}; "*topup" := {[ 100 := true ]} ]}.

Definition schedStats : Scheduler :=
  mkScheduler [] None (mkStorage [] (inl [])) false 50 unlockedMutex unlockedMutex
    (Some windowSample) None.

(** ** More of the reload *)

(** What the drain leaves to pop, seen from a state of the drain: the
    storage itself once the loop is left, and before that what
    [drainTasks] is going to leave of it. *)
Definition drainUnread (d : DrainState) : Storage :=
  match drainPC d with
  | DrainOver => drainStorage d
  | _ => (drainTasks (drainStorage d)).2
  end.

(** The drain of [storageNotFound] once the caller has left the loop, with
    its two tasks still in flight. *)
Definition drainLeft : DrainState :=
  mkDrain (mkStorage [(Some task3, None)] (inr ErrNotFound)) 2 [task1; task2] DrainOver.

(** ** More of the loop *)

(** An item as the rebuild queues it: it has a descriptor, it is not ASAP,
    and its next start is memoized. *)
Definition itemOK (a : ActionTiming) : Prop :=
  Timing a ≠ None ∧ IsASAP a = false ∧ is_Some (stCache a).

(** A queue of such items, in the order of their memoized next starts. *)
Definition queueOK (q : list ActionTiming) : Prop :=
  Forall itemOK q ∧ Sorted (dueOrder 0) q.

(** The loop of the scenario at the top of a pass, no controller call under
    way, and the same system after the pass it makes at 5s. *)
Definition sysFire : System := mkSystem schedAC LoopTop CtlReturned [].

Definition sysFired : System :=
  default sysFire (loopMove (5 * Second) (5 * Second) 0 sysFire).

(** ** More of the shutdown *)

(** The loop stands where it can only leave or wait: at the top of the outer
    loop, in the select, or behind the break. *)
Definition loopLeaving (pc : LoopPC) : bool :=
  match pc with
  | LoopTop | LoopWaiting _ | LoopExited => true
  | _ => false
  end.

(** [Shutdown] is past line 202. *)
Definition flagCleared (pc : CtlPC) : bool :=
  match pc with
  | CtlShutdownSend | CtlShutdownStop | CtlReturned => true
  | _ => false
  end.

Definition windingDown (sys : System) : Prop :=
  schedulerStarted (sched sys) = false
  ∧ loopLeaving (loopPC sys) = true
  ∧ flagCleared (ctlPC sys) = true.

(** The loop of the scenario in the select for A with its timer armed, and
    [Shutdown] in its send, the flag cleared. *)
Definition sysShutdownDuringWait : System :=
  mkSystem (withTimer (Some (NewTimer (4 * Second))) (withStarted false schedAC))
    (LoopWaiting "A") CtlShutdownSend [].

(** The loop has left, and [Shutdown] is called (again). *)
Definition sysShutdownAfterExit : System :=
  mkSystem (withStarted false schedAC) LoopExited CtlShutdown [].

(** * Properties *)

(** ** Time and locks *)

Lemma Sub_diag t : Sub t t = 0.
Proof.
  unfold Sub, maxDuration, minDuration. replace (t - t) with 0 by lia.
  repeat case_bool_decide; lia.
Qed.

Lemma Before_true t u : Before t u = true ↔ t < u.
Proof. unfold Before. by rewrite bool_decide_eq_true. Qed.

Lemma Before_false t u : Before t u = false ↔ u ≤ t.
Proof. unfold Before. rewrite bool_decide_eq_false. lia. Qed.

Lemma Equal_true t u : Equal t u = true ↔ t = u.
Proof. unfold Equal. by rewrite bool_decide_eq_true. Qed.

Lemma due_iff start now : Equal start now || Before start now = true ↔ start ≤ now.
Proof. rewrite orb_true_iff, Equal_true, Before_true. lia. Qed.

Lemma Lock_free m : mutexFree m = true → Lock m = Some (mkMutex true (readers m)).
Proof. unfold Lock. by intros ->. Qed.

Lemma Lock_held m m' : Lock m = Some m' → writer m' = true.
Proof. unfold Lock. destruct (mutexFree m); naive_solver. Qed.

(** ** The pruning loops compute [prunedWindow] *)

Section PruneFacts.

Variables (now interval : Z).

Lemma pruneTimestamp_same a (m : gmap string (gmap Z bool)) t :
  pruneTimestamp now interval a m t !! a = pruneEntryStep now interval (m !! a) t.
Proof.
  unfold pruneTimestamp, pruneEntryStep.
  destruct (bool_decide (Sub now t > interval)); [|done].
  rewrite lookup_alter_eq. destruct (m !! a) as [ts|] eqn:Ha; simpl.
  - case_bool_decide.
    + by rewrite lookup_delete_eq.
    + by rewrite lookup_alter_eq, Ha.
  - rewrite bool_decide_eq_true_2 by apply map_size_empty.
    by rewrite lookup_delete_eq.
Qed.

Lemma pruneTimestamp_other a k (m : gmap string (gmap Z bool)) t :
  k ≠ a → pruneTimestamp now interval a m t !! k = m !! k.
Proof.
  intros Hk. unfold pruneTimestamp.
  destruct (bool_decide (Sub now t > interval)); [|done].
  case_bool_decide.
  - rewrite lookup_delete_ne by done. by rewrite lookup_alter_ne.
  - by rewrite lookup_alter_ne.
Qed.

Lemma foldl_pruneTimestamp_same a l (m : gmap string (gmap Z bool)) :
  foldl (pruneTimestamp now interval a) m l !! a
  = foldl (pruneEntryStep now interval) (m !! a) l.
Proof.
  revert m. induction l as [|t l IH]; intros m; simpl; [done|].
  by rewrite IH, pruneTimestamp_same.
Qed.

Lemma foldl_pruneTimestamp_other a k l (m : gmap string (gmap Z bool)) :
  k ≠ a → foldl (pruneTimestamp now interval a) m l !! k = m !! k.
Proof.
  intros Hk. revert m. induction l as [|t l IH]; intros m; simpl; [done|].
  by rewrite IH, pruneTimestamp_other.
Qed.

Lemma foldl_pruneEntryStep_None l :
  foldl (pruneEntryStep now interval) None l = None.
Proof.
  induction l as [|t l IH]; simpl; [done|].
  unfold pruneEntryStep at 2. by destruct (bool_decide (Sub now t > interval)).
Qed.

Lemma keptAfter_Some l (ts : gmap Z bool) k x :
  keptAfter now interval l ts !! k = Some x
  ↔ ts !! k = Some x ∧ ¬ (stale now interval k ∧ k ∈ l).
Proof. unfold keptAfter. by rewrite map_lookup_filter_Some. Qed.

Lemma keptAfter_nil (ts : gmap Z bool) : keptAfter now interval [] ts = ts.
Proof.
  apply map_eq; intros k; apply option_eq; intros x.
  rewrite keptAfter_Some. set_solver.
Qed.

Lemma keptAfter_cons_stale t l (ts : gmap Z bool) :
  stale now interval t → t ∉ l →
  keptAfter now interval (t :: l) ts = keptAfter now interval l (delete t ts).
Proof.
  intros Ht Hl. apply map_eq; intros k; apply option_eq; intros x.
  rewrite !keptAfter_Some, lookup_delete_Some, elem_of_cons.
  destruct (decide (k = t)) as [->|]; naive_solver.
Qed.

Lemma keptAfter_cons_fresh t l (ts : gmap Z bool) :
  ¬ stale now interval t →
  keptAfter now interval (t :: l) ts = keptAfter now interval l ts.
Proof.
  intros Ht. apply map_eq; intros k; apply option_eq; intros x.
  rewrite !keptAfter_Some, elem_of_cons. naive_solver.
Qed.

(** The inner loop over the timestamps [l] of one kind. *)
Lemma foldl_pruneEntryStep_Some l (ts : gmap Z bool) :
  NoDup l → (∀ t, t ∈ l → is_Some (ts !! t)) →
  foldl (pruneEntryStep now interval) (Some ts) l
  = if decide (keptAfter now interval l ts = ∅ ∧ Exists (stale now interval) l)
    then None else Some (keptAfter now interval l ts).
Proof.
  intros Hnd. revert ts. induction Hnd as [|t l Ht Hnd IH]; intros ts Hin.
  { simpl. rewrite decide_False, keptAfter_nil; [done|].
    intros [_ H]. by apply Exists_nil in H. }
  simpl. unfold pruneEntryStep at 2.
  case_bool_decide as Hst.
  - rewrite keptAfter_cons_stale by done.
    case_bool_decide as Hsz.
    + apply map_size_empty_iff in Hsz. rewrite foldl_pruneEntryStep_None.
      rewrite decide_True; [done|]. split; [|by left].
      apply map_eq; intros k; apply option_eq; intros x.
      rewrite keptAfter_Some, Hsz, lookup_empty. naive_solver.
    + rewrite IH.
      * apply decide_ext. split; intros [HK HE]; (split; [done|]).
        -- by right.
        -- apply map_size_non_empty_iff, map_choose in Hsz as (k & x & Hk).
           destruct (decide (stale now interval k ∧ k ∈ l)) as [[??]|Hn].
           ++ apply Exists_exists. eauto.
           ++ assert (keptAfter now interval l (delete t ts) !! k = Some x) as Hc
                by by apply keptAfter_Some.
              by rewrite HK, lookup_empty in Hc.
      * intros u Hu. rewrite lookup_delete_ne by set_solver.
        apply Hin. by right.
  - rewrite keptAfter_cons_fresh by done. rewrite IH.
    + apply decide_ext. rewrite Exists_cons. naive_solver.
    + intros u Hu. apply Hin. by right.
Qed.

Lemma elem_of_rangeKeys {V} (m : gmap Z V) k : k ∈ rangeKeys m ↔ is_Some (m !! k).
Proof.
  unfold rangeKeys. rewrite list_elem_of_fmap. split.
  - intros ([k' x] & -> & Hx). apply elem_of_map_to_list in Hx. by exists x.
  - intros [x Hx]. exists (k, x). split; [done|]. by apply elem_of_map_to_list.
Qed.

Lemma elem_of_rangeKeys_str {V} (m : gmap string V) k :
  k ∈ rangeKeys m ↔ is_Some (m !! k).
Proof.
  unfold rangeKeys. rewrite list_elem_of_fmap. split.
  - intros ([k' x] & -> & Hx). apply elem_of_map_to_list in Hx. by exists x.
  - intros [x Hx]. exists (k, x). split; [done|]. by apply elem_of_map_to_list.
Qed.

Lemma foldl_pruneEntryStep_keys (ts : gmap Z bool) :
  foldl (pruneEntryStep now interval) (Some ts) (rangeKeys ts)
  = prunedSet now interval ts.
Proof.
  rewrite foldl_pruneEntryStep_Some.
  2: { apply NoDup_fst_map_to_list. }
  2: { intros t. by rewrite elem_of_rangeKeys. }
  unfold prunedSet. cbn zeta.
  assert (keptAfter now interval (rangeKeys ts) ts
          = filter (λ kv, ¬ stale now interval kv.1) ts) as ->.
  { unfold keptAfter. apply map_filter_ext. intros k x Hk. simpl.
    assert (k ∈ rangeKeys ts) by (apply elem_of_rangeKeys; eauto).
    naive_solver. }
  apply decide_ext. split; intros [HK HE]; (split; [done|]).
  - intros ->. apply Exists_exists in HE as (t & Ht & _).
    apply elem_of_rangeKeys in Ht as [x Ht]. by rewrite lookup_empty in Ht.
  - apply map_choose in HE as (k & x & Hk).
    apply Exists_exists. exists k. split.
    + apply elem_of_rangeKeys. eauto.
    + destruct (decide (stale now interval k)) as [|Hn]; [done|].
      assert (filter (λ kv, ¬ stale now interval kv.1) ts !! k = Some x) as Hc
        by by apply map_lookup_filter_Some.
      by rewrite HK, lookup_empty in Hc.
Qed.

Lemma pruneKind_same a (m : gmap string (gmap Z bool)) :
  pruneKind now interval m a !! a = m !! a ≫= prunedSet now interval.
Proof.
  unfold pruneKind. rewrite foldl_pruneTimestamp_same.
  destruct (m !! a) as [ts|]; simpl.
  - apply foldl_pruneEntryStep_keys.
  - unfold rangeKeys. by rewrite map_to_list_empty.
Qed.

Lemma pruneKind_other a k (m : gmap string (gmap Z bool)) :
  k ≠ a → pruneKind now interval m a !! k = m !! k.
Proof. intros. unfold pruneKind. by apply foldl_pruneTimestamp_other. Qed.

Lemma foldl_pruneKind l (m : gmap string (gmap Z bool)) k :
  NoDup l →
  foldl (pruneKind now interval) m l !! k
  = if decide (k ∈ l) then m !! k ≫= prunedSet now interval else m !! k.
Proof.
  intros Hnd. revert m. induction Hnd as [|a l Ha Hnd IH]; intros m; simpl.
  { done. }
  rewrite IH. destruct (decide (k = a)) as [->|Hka].
  - rewrite decide_False by done.
    rewrite (decide_True (P := a ∈ a :: l)) by by left.
    apply pruneKind_same.
  - rewrite pruneKind_other by done.
    apply decide_ext. rewrite elem_of_cons. naive_solver.
Qed.

(** The two loops of lines 61-70 remove the stale timestamps and the kinds
    they leave without timestamp, and nothing else. *)
Lemma pruneStats_prunedWindow (m : gmap string (gmap Z bool)) :
  pruneStats now interval m = prunedWindow now interval m.
Proof.
  apply map_eq; intros k. unfold pruneStats, prunedWindow.
  rewrite foldl_pruneKind by apply NoDup_fst_map_to_list.
  rewrite lookup_omap. case_decide as Hk; [done|].
  rewrite elem_of_rangeKeys_str in Hk.
  apply eq_None_not_Some in Hk. by rewrite Hk.
Qed.

End PruneFacts.

(** ** [updateActStats] *)

Lemma loadActionPlans_fields clock s :
  let s' := (loadActionPlans clock s).1 in
  timer s' = timer s ∧ schedulerStarted s' = schedulerStarted s
  ∧ actStatsInterval s' = actStatsInterval s
  ∧ aSMux s' = aSMux s ∧ aFMux s' = aFMux s
  ∧ actSuccessStats s' = actSuccessStats s ∧ actFailedStats s' = actFailedStats s.
Proof.
  unfold loadActionPlans.
  destruct (drainTasks (storage s)) as [tasks st1].
  destruct (GetAllActionPlans st1) as [plans err].
  destruct (foldl _ _ plans) as [[q tick] log]. simpl. done.
Qed.

(** The scheduler [NewScheduler] returns has no window allocated and its two
    stats locks free. *)
Lemma NewScheduler_stats clock st isFailed :
  selectedStats isFailed (NewScheduler clock st).1 = None
  ∧ selectedMux isFailed (NewScheduler clock st).1 = unlockedMutex.
Proof.
  unfold NewScheduler.
  pose proof (loadActionPlans_fields clock (newSchedulerLiteral st)) as H.
  destruct (loadActionPlans clock (newSchedulerLiteral st)) as [s log].
  simpl in *. destruct H as (_ & _ & _ & HS & HF & HSs & HFs).
  unfold selectedStats, selectedMux, stopTimer, withTimer. simpl.
  destruct isFailed; by rewrite ?HS, ?HF, ?HSs, ?HFs.
Qed.

Lemma selectedStats_with isFailed w s :
  selectedStats isFailed (withSelectedStats isFailed w s) = w.
Proof. by destruct isFailed. Qed.

Lemma otherStats_with isFailed w s :
  otherStats isFailed (withSelectedStats isFailed w s) = otherStats isFailed s.
Proof. by destruct isFailed. Qed.

(** A call without action on a free lock prunes the selected window and
    does nothing else to it. *)
Lemma updateActStats_prune_only s isFailed now :
  mutexFree (selectedMux isFailed s) = true →
  selectedStats isFailed (exitSched (updateActStats s None isFailed now))
  = prunedWindow now (actStatsInterval s) <$> selectedStats isFailed s.
Proof.
  intros Hfree. unfold updateActStats. rewrite (Lock_free _ Hfree). simpl.
  rewrite selectedStats_with.
  destruct (selectedStats isFailed s); simpl; [|done].
  by rewrite pruneStats_prunedWindow.
Qed.

(** A call with an action on a free lock and an allocated window prunes
    the window, records [now] under the kind of the action, and returns. *)
Lemma updateActStats_record s a isFailed now w :
  mutexFree (selectedMux isFailed s) = true →
  selectedStats isFailed s = Some w →
  let r := updateActStats s (Some a) isFailed now in
  exitHow r = Returned
  ∧ mutexFree (exitMux r) = true
  ∧ selectedStats isFailed (exitSched r)
    = Some (insertStat now (ActionType a) (prunedWindow now (actStatsInterval s) w)).
Proof.
  intros Hfree Hw. unfold updateActStats. rewrite (Lock_free _ Hfree), Hw. simpl.
  rewrite selectedStats_with, pruneStats_prunedWindow.
  split_and!; [done| |done].
  unfold mutexFree in *. simpl. by apply andb_true_iff in Hfree as [_ ->].
Qed.

Lemma prunedWindow_Some now interval (w : gmap string (gmap Z bool)) k ts' :
  prunedWindow now interval w !! k = Some ts' ↔
  ∃ ts, w !! k = Some ts
        ∧ ts' = filter (λ kv, ¬ stale now interval kv.1) ts
        ∧ (ts' = ∅ → ts = ∅).
Proof.
  unfold prunedWindow. rewrite lookup_omap.
  destruct (w !! k) as [ts|]; simpl; [|naive_solver].
  unfold prunedSet. cbn zeta. case_decide as Hd.
  - split; [done|]. intros (ts0 & [= <-] & -> & Himp). naive_solver.
  - split.
    + intros [= <-]. exists ts. split_and!; [done..|].
      intros He. destruct (decide (ts = ∅)); naive_solver.
    + intros (ts0 & [= <-] & -> & _). done.
Qed.

(** After the pruning no timestamp of the window is stale. *)
Lemma prunedWindow_fresh now interval (w : gmap string (gmap Z bool)) k ts t :
  prunedWindow now interval w !! k = Some ts → is_Some (ts !! t) →
  ¬ stale now interval t.
Proof.
  intros (ts0 & _ & -> & _)%prunedWindow_Some [x Hx].
  by apply map_lookup_filter_Some in Hx as [_ Hx].
Qed.

(** After the pruning a kind is in the window without timestamp only if it
    was so before: a kind whose set became empty is absent. *)
Lemma prunedWindow_emptied now interval (w : gmap string (gmap Z bool)) k ts :
  w !! k = Some ts → ts ≠ ∅ →
  (∀ t, is_Some (ts !! t) → stale now interval t) →
  prunedWindow now interval w !! k = None.
Proof.
  intros Hk Hne Hall. apply eq_None_not_Some. intros [ts' Hts'].
  apply prunedWindow_Some in Hts' as (ts0 & Hk0 & -> & Himp).
  rewrite Hk in Hk0. injection Hk0 as <-. apply Hne, Himp.
  apply map_eq; intros t. rewrite lookup_empty.
  apply map_lookup_filter_None. destruct (ts !! t) as [x|] eqn:Ht; [|by left].
  right. intros y _ Hn. apply Hn. simpl. apply Hall. eauto.
Qed.

(** The pruning keeps every timestamp that is not stale. *)
Lemma prunedWindow_keeps now interval (w : gmap string (gmap Z bool)) k ts t x :
  w !! k = Some ts → ts !! t = Some x → ¬ stale now interval t →
  ∃ ts', prunedWindow now interval w !! k = Some ts' ∧ ts' !! t = Some x.
Proof.
  intros Hk Ht Hf.
  assert (filter (λ kv, ¬ stale now interval kv.1) ts !! t = Some x) as Hin
    by by apply map_lookup_filter_Some.
  exists (filter (λ kv, ¬ stale now interval kv.1) ts). split; [|done].
  apply prunedWindow_Some. exists ts. split_and!; [done..|].
  intros He. by rewrite He, lookup_empty in Hin.
Qed.

Lemma insertStat_same now a (w : gmap string (gmap Z bool)) :
  insertStat now a w !! a = Some (<[now := true]> (default ∅ (w !! a))).
Proof.
  unfold insertStat. destruct (w !! a) as [ts|] eqn:Ha; simpl.
  - by rewrite lookup_alter_eq, Ha.
  - by rewrite lookup_alter_eq, lookup_insert_eq.
Qed.

Lemma insertStat_other now a k (w : gmap string (gmap Z bool)) :
  k ≠ a → insertStat now a w !! k = w !! k.
Proof.
  intros Hk. unfold insertStat. destruct (w !! a) as [ts|] eqn:Ha; simpl.
  - by rewrite lookup_alter_ne.
  - rewrite lookup_alter_ne by done. by rewrite lookup_insert_ne.
Qed.

(** On an allocated window, a free lock and a retention interval that is not
    negative, no timestamp of the selected window is stale after the call,
    with or without action. *)
Lemma updateActStats_fresh s act isFailed now w w' k ts t :
  mutexFree (selectedMux isFailed s) = true →
  0 ≤ actStatsInterval s →
  selectedStats isFailed s = Some w →
  selectedStats isFailed (exitSched (updateActStats s act isFailed now)) = Some w' →
  w' !! k = Some ts → is_Some (ts !! t) →
  ¬ stale now (actStatsInterval s) t.
Proof.
  intros Hfree Hint Hw Hw' Hk Ht. destruct act as [a|].
  - destruct (updateActStats_record s a isFailed now w Hfree Hw) as (_ & _ & Hrec).
    rewrite Hrec in Hw'. injection Hw' as <-.
    destruct (decide (k = ActionType a)) as [->|Hne].
    + rewrite insertStat_same in Hk. injection Hk as <-.
      destruct Ht as [x Ht]. apply lookup_insert_Some in Ht as [[<- _]|[_ Ht]].
      * unfold stale. rewrite Sub_diag. lia.
      * destruct (prunedWindow now (actStatsInterval s) w !! ActionType a)
          as [ts0|] eqn:Hts0; simpl in Ht; [|by rewrite lookup_empty in Ht].
        eapply prunedWindow_fresh; eauto.
    + rewrite insertStat_other in Hk by done. eapply prunedWindow_fresh; eauto.
  - rewrite (updateActStats_prune_only s isFailed now Hfree), Hw in Hw'.
    injection Hw' as <-. eapply prunedWindow_fresh; eauto.
Qed.

(** C5.  The record operation on the scheduler that [NewScheduler] returns:
    neither window was ever allocated, so a call with an action finds no
    stale timestamp to prune and then panics at line 75, on the assignment
    into the nil map.  No timestamp is inserted and no per-kind set is
    created. *)
Theorem updateActStats_new_scheduler_panics clock st a isFailed now :
  let r := updateActStats (NewScheduler clock st).1 (Some a) isFailed now in
  exitHow r = Panicked ∧ selectedStats isFailed (exitSched r) = None.
Proof.
  destruct (NewScheduler_stats clock st isFailed) as [Hw Hm].
  unfold updateActStats. rewrite Hm, Hw. simpl.
  by rewrite selectedStats_with.
Qed.

(** C6.  A call of the record operation without action, on a scheduler whose
    selected lock is free, returns at line 72 with the lock it took at
    line 60 still held: there is no [Unlock] on that path. *)
Theorem updateActStats_prune_only_holds_lock s isFailed now :
  mutexFree (selectedMux isFailed s) = true →
  exitHow (updateActStats s None isFailed now) = Returned
  ∧ writer (exitMux (updateActStats s None isFailed now)) = true.
Proof.
  intros Hfree. unfold updateActStats. by rewrite (Lock_free _ Hfree).
Qed.

Lemma updateActStats_prune_only_holds_lock_witness :
  exitHow (updateActStats (newSchedulerLiteral (mkStorage [] (inl []))) None false 5)
  = Returned
  ∧ writer (exitMux (updateActStats (newSchedulerLiteral (mkStorage [] (inl [])))
                       None false 5)) = true.
Proof.
  apply (updateActStats_prune_only_holds_lock
           (newSchedulerLiteral (mkStorage [] (inl []))) false 5).
  reflexivity.
Defined.

(** The lock fields of the scheduler are never touched: [Lock] and [Unlock]
    work on the copy in [mux]. *)
Lemma updateActStats_mutex_fields s act isFailed now :
  aSMux (exitSched (updateActStats s act isFailed now)) = aSMux s
  ∧ aFMux (exitSched (updateActStats s act isFailed now)) = aFMux s.
Proof.
  unfold updateActStats.
  destruct (Lock _); [|done]. destruct act; [|by destruct isFailed].
  destruct (_ <$> _); [|by destruct isFailed].
  destruct (Unlock _); by destruct isFailed.
Qed.

(** C10.  Whatever the action and however the call ends, the record
    operation leaves the window that the failure flag does not select as it
    was. *)
Theorem updateActStats_other_window_unchanged s act isFailed now :
  otherStats isFailed (exitSched (updateActStats s act isFailed now))
  = otherStats isFailed s.
Proof.
  unfold updateActStats.
  destruct (Lock _); [|done].
  destruct act; [|by cbn; rewrite otherStats_with].
  destruct (pruneStats now (actStatsInterval s) <$> selectedStats isFailed s);
    [|by cbn; rewrite otherStats_with].
  destruct (Unlock _); cbn; by rewrite !otherStats_with.
Qed.

(** ** The rebuild *)

Lemma drainTasks_plansAnswer st : plansAnswer (drainTasks st).2 = plansAnswer st.
Proof. unfold drainTasks. by destruct (drainLoop (popAnswers st)). Qed.

Lemma drainTasks_plans st :
  GetAllActionPlans (drainTasks st).2 = GetAllActionPlans st.
Proof. unfold GetAllActionPlans. by rewrite drainTasks_plansAnswer. Qed.

Section Rebuild.

Variables (clock : nat → Z) (plans : list (option ActionPlan)).

Lemma scanItem_fromPlans plan acc at0 :
  Some plan ∈ plans → at0 ∈ ActionTimings plan →
  fromPlans clock plans acc.1.1 →
  fromPlans clock plans (scanItem clock plan acc at0).1.1.
Proof.
  intros Hplan Hat. destruct acc as [[q tick] log]. simpl. intros Hq.
  destruct (Timing at0) as [next|] eqn:Htim; [|done].
  destruct (IsASAP at0) eqn:Hasap; [done|].
  destruct (GetNextStartTime at0 (clock tick)) as [start at1] eqn:Hget.
  destruct (Before start (clock tick)) eqn:Hbefore; [done|]. simpl.
  intros x [Hx|Hx]%elem_of_app; [by apply Hq|].
  apply list_elem_of_singleton in Hx as ->.
  exists plan, at0, tick. split_and!; [done..| |].
  - unfold admissible, resolvedNextStart. rewrite Hget, Htim. simpl.
    apply Before_false in Hbefore. split_and!; [done..|lia].
  - unfold stamped. by rewrite Hget.
Qed.

Lemma foldl_scanItem_fromPlans plan l acc :
  Some plan ∈ plans → (∀ at0, at0 ∈ l → at0 ∈ ActionTimings plan) →
  fromPlans clock plans acc.1.1 →
  fromPlans clock plans (foldl (scanItem clock plan) acc l).1.1.
Proof.
  intros Hplan. revert acc. induction l as [|at0 l IH]; intros acc Hl Hacc; [done|].
  simpl. apply IH.
  - intros ??. apply Hl. by right.
  - apply scanItem_fromPlans; [done| |done]. apply Hl. by left.
Qed.

Lemma foldl_scanPlan_fromPlans l acc :
  (∀ p, p ∈ l → p ∈ plans) →
  fromPlans clock plans acc.1.1 →
  fromPlans clock plans (foldl (scanPlan clock) acc l).1.1.
Proof.
  revert acc. induction l as [|p l IH]; intros acc Hl Hacc; [done|].
  simpl. apply IH; [intros ??; apply Hl; by right|].
  destruct p as [plan|]; [|done]. simpl.
  apply foldl_scanItem_fromPlans; [|done..]. apply Hl. by left.
Qed.

End Rebuild.

Lemma sortQueue_elem_of now q x : x ∈ sortQueue now q ↔ x ∈ q.
Proof. unfold sortQueue. by rewrite merge_sort_Permutation. Qed.

(** Where the entries of the rebuilt queue come from. *)
Lemma loadActionPlans_origin clock s x :
  x ∈ queue (loadActionPlans clock s).1 →
  ∃ plan at0 k,
    Some plan ∈ (GetAllActionPlans (storage s)).1 ∧ at0 ∈ ActionTimings plan
    ∧ admissible (clock k) at0 ∧ x = stamped plan (clock k) at0.
Proof.
  unfold loadActionPlans.
  pose proof (drainTasks_plans (storage s)) as Hplans.
  destruct (drainTasks (storage s)) as [tasks st1]. simpl in Hplans.
  rewrite Hplans. destruct (GetAllActionPlans (storage s)) as [plans err].
  pose proof (foldl_scanPlan_fromPlans clock plans plans ([], 0%nat, [])) as Hinv.
  destruct (foldl (scanPlan clock) ([], 0%nat, []) plans) as [[q tick] log].
  simpl in *. rewrite sortQueue_elem_of. apply Hinv; [done|].
  by intros ? ?%elem_of_nil.
Qed.

(** The scenario: the rebuild orders the three items as B, A, C. *)
Example rebuild_ABC :
  ActionsID <$> queue schedABC = ["B"; "A"; "C"]
  ∧ stCache <$> queue schedABC
    = [Some Second; Some (5 * Second); Some (10 * Second)].
Proof. split; vm_compute; reflexivity. Qed.

(** C3.  Every entry of the queue a rebuild leaves comes from an item of a
    plan the storage returned that had a descriptor, was not ASAP, and whose
    next start, resolved at the reading of the clock taken for it, was not
    before that reading; the entry is that item, stamped.  An item with a
    nil descriptor, an ASAP item or a stale item therefore yields no
    entry. *)
Theorem rebuild_queues_only_admissible clock s x :
  x ∈ queue (loadActionPlans clock s).1 →
  ∃ plan at0 k,
    Some plan ∈ (GetAllActionPlans (storage s)).1 ∧ at0 ∈ ActionTimings plan
    ∧ Timing at0 ≠ None ∧ IsASAP at0 = false
    ∧ ¬ resolvedNextStart (clock k) at0 < clock k
    ∧ x = stamped plan (clock k) at0.
Proof.
  intros (plan & at0 & k & Hp & Hat & (Ht & Ha & Hs) & Hx)%loadActionPlans_origin.
  by exists plan, at0, k.
Qed.

Lemma rebuild_queues_only_admissible_witness :
  ∃ plan at0 k,
    Some plan ∈ (GetAllActionPlans (storage (newSchedulerLiteral storageABC))).1
    ∧ at0 ∈ ActionTimings plan
    ∧ Timing at0 ≠ None ∧ IsASAP at0 = false
    ∧ ¬ resolvedNextStart (clock0 k) at0 < clock0 k
    ∧ stamped planABC 0 itemB = stamped plan (clock0 k) at0.
Proof.
  apply (rebuild_queues_only_admissible clock0 (newSchedulerLiteral storageABC)
           (stamped planABC 0 itemB)).
  apply list_elem_of_here.
Defined.

(** ** The order of the queue *)

#[local] Instance dueOrder_total now : Total (dueOrder now).
Proof. intros a b. unfold dueOrder. lia. Qed.

Lemma sortQueue_Sorted now q : Sorted (dueOrder now) (sortQueue now q).
Proof. unfold sortQueue. apply Sorted_merge_sort, _. Qed.

(** A sorted queue is ascending position by position. *)
Lemma Sorted_ascending now q : Sorted (dueOrder now) q → ascending now q.
Proof.
  induction 1 as [|a q Hq IH Hhd]; intros k x y Hx Hy; [done|].
  destruct k as [|k]; simpl in *.
  - injection Hx as <-. destruct Hhd as [|b q' Hab]; [done|].
    simpl in Hy. injection Hy as <-. exact Hab.
  - by apply (IH k).
Qed.

(** The next start of an item that has one memoized does not depend on the
    reference instant. *)
Lemma resolvedNextStart_cached now now' at0 :
  is_Some (stCache at0) → resolvedNextStart now at0 = resolvedNextStart now' at0.
Proof.
  intros [t Ht]. unfold resolvedNextStart, GetNextStartTime. by rewrite Ht.
Qed.

Lemma GetNextStartTime_cached at0 now :
  Timing at0 ≠ None → is_Some (stCache (GetNextStartTime at0 now).2).
Proof.
  intros Ht. unfold GetNextStartTime.
  destruct (stCache at0) as [t|] eqn:Hc; simpl; [by rewrite Hc|].
  destruct (Timing at0); [by eexists|done].
Qed.

Lemma stamped_cached plan now at0 :
  Timing at0 ≠ None → is_Some (stCache (stamped plan now at0)).
Proof. intros Ht. unfold stamped. simpl. by apply GetNextStartTime_cached. Qed.

(** Every entry of the rebuilt queue has its next start memoized. *)
Lemma loadActionPlans_cached clock s x :
  x ∈ queue (loadActionPlans clock s).1 → is_Some (stCache x).
Proof.
  intros (plan & at0 & k & _ & _ & (Ht & _) & ->)%loadActionPlans_origin.
  by apply stamped_cached.
Qed.

Lemma loadActionPlans_Sorted clock s :
  ∃ nowS, Sorted (dueOrder nowS) (queue (loadActionPlans clock s).1).
Proof.
  unfold loadActionPlans.
  destruct (drainTasks (storage s)) as [tasks st1].
  destruct (GetAllActionPlans st1) as [plans err].
  destruct (foldl (scanPlan clock) ([], 0%nat, []) plans) as [[q tick] log].
  exists (clock tick). simpl. apply sortQueue_Sorted.
Qed.

Lemma loadActionPlans_ascending clock s now :
  ascending now (queue (loadActionPlans clock s).1).
Proof.
  destruct (loadActionPlans_Sorted clock s) as [nowS HS].
  apply Sorted_ascending in HS. intros k a b Ha Hb.
  rewrite (resolvedNextStart_cached now nowS a),
          (resolvedNextStart_cached now nowS b).
  - by apply (HS k).
  - apply (loadActionPlans_cached clock s), list_elem_of_lookup. eauto.
  - apply (loadActionPlans_cached clock s), list_elem_of_lookup. eauto.
Qed.

(** What a FIRING iteration that keeps the item leaves as queue. *)
Lemma loopBody_reinsert s now1 now2 nowS a0 rest :
  queue s = a0 :: rest →
  resolvedNextStart now1 a0 ≤ now1 →
  ¬ resolvedNextStart (Add now2 Second)
      (ResetStartTimeCache (GetNextStartTime a0 now1).2) < Add now2 Second →
  queue (loopBody s now1 now2 nowS).1.2
  = sortQueue nowS
      (rest ++ [(GetNextStartTime (ResetStartTimeCache (GetNextStartTime a0 now1).2)
                   (Add now2 Second)).2]).
Proof.
  intros Hq Hdue Hkeep. unfold loopBody. rewrite Hq.
  unfold resolvedNextStart in *.
  destruct (GetNextStartTime a0 now1) as [start a1]. simpl in *.
  rewrite (proj2 (due_iff start now1) Hdue).
  destruct (GetNextStartTime (ResetStartTimeCache a1) (Add now2 Second))
    as [start2 a3]. simpl in *.
  rewrite (proj2 (Before_false start2 (Add now2 Second))) by lia.
  done.
Qed.

(** C4.  After a rebuild the queue is ascending in resolved next start,
    whatever the instant the next starts are resolved at (they are all
    memoized); after a FIRING iteration that puts the item back, the queue
    is ascending in next start as resolved at the reading of the sort. *)
Theorem queue_ascending :
  (∀ clock s now, ascending now (queue (loadActionPlans clock s).1))
  ∧ (∀ s now1 now2 nowS a0 rest,
       queue s = a0 :: rest →
       resolvedNextStart now1 a0 ≤ now1 →
       ¬ resolvedNextStart (Add now2 Second)
           (ResetStartTimeCache (GetNextStartTime a0 now1).2) < Add now2 Second →
       ascending nowS (queue (loopBody s now1 now2 nowS).1.2)).
Proof.
  split.
  - apply loadActionPlans_ascending.
  - intros s now1 now2 nowS a0 rest Hq Hdue Hkeep.
    rewrite (loopBody_reinsert s now1 now2 nowS a0 rest Hq Hdue Hkeep).
    apply Sorted_ascending, sortQueue_Sorted.
Qed.

Lemma queue_ascending_witness :
  ascending 0 (queue (loopBody schedAC (5 * Second) (5 * Second) 0).1.2).
Proof.
  apply (proj2 queue_ascending schedAC (5 * Second) (5 * Second) 0
           (stamped planABC 0 itemA) [stamped planABC 0 itemC]).
  - reflexivity.
  - by vm_compute.
  - by vm_compute.
Defined.

(** ** A FIRING iteration *)

(** Resolving the next start changes nothing of an item but the memo. *)
Lemma GetNextStartTime_reset at0 now :
  ResetStartTimeCache (GetNextStartTime at0 now).2 = ResetStartTimeCache at0.
Proof.
  destruct at0 as [id tm a c ids pid]. unfold GetNextStartTime. simpl.
  destruct c; [done|]. by destruct tm.
Qed.

(** After the invalidation the next start is resolved anew, against the
    reference instant. *)
Lemma resolvedNextStart_reset ref at0 :
  resolvedNextStart ref (ResetStartTimeCache at0)
  = match Timing at0 with Some next => next ref | None => zeroTime end.
Proof. unfold resolvedNextStart, GetNextStartTime. simpl. by destruct (Timing at0). Qed.

(** C2.  An iteration that finds the head [a0] of the queue due at its
    reading [now1] of the clock (next start equal to or before [now1])
    ends at the top of the loop, has started exactly one goroutine, the one
    that executes [a0], and leaves the queue as follows: with the memo of
    [a0] invalidated and its next start resolved anew against the reference
    [ref] (the reading [now2] of line 101 plus one second), [a0] is gone when
    that next start is before [ref], and otherwise the head is removed, [a0]
    (memoizing the new start) is appended and the queue sorted. *)
Theorem loopBody_fires_due_head s now1 now2 nowS a0 rest :
  queue s = a0 :: rest →
  resolvedNextStart now1 a0 ≤ now1 →
  let a1 := (GetNextStartTime a0 now1).2 in
  let ref := Add now2 Second in
  let start2 := resolvedNextStart ref (ResetStartTimeCache a1) in
  let a3 := (GetNextStartTime (ResetStartTimeCache a1) ref).2 in
  (loopBody s now1 now2 nowS).1.1 = LoopTop
  ∧ dispatches (loopBody s now1 now2 nowS).2 = [a1]
  ∧ ResetStartTimeCache a1 = ResetStartTimeCache a0
  ∧ start2 = match Timing a0 with Some next => next ref | None => zeroTime end
  ∧ (loopBody s now1 now2 nowS).1.2
    = withQueue (if bool_decide (start2 < ref) then rest
                 else sortQueue nowS (rest ++ [a3])) s.
Proof.
  intros Hq Hdue a1 ref start2 a3.
  assert (ResetStartTimeCache a1 = ResetStartTimeCache a0) as Hreset
    by apply GetNextStartTime_reset.
  assert (start2 = match Timing a0 with Some next => next ref | None => zeroTime end)
    as Hstart by (unfold start2; rewrite Hreset; apply resolvedNextStart_reset).
  unfold loopBody. rewrite Hq.
  subst a1 a3 start2 ref. unfold resolvedNextStart in *.
  destruct (GetNextStartTime a0 now1) as [start a1]. simpl in *.
  rewrite (proj2 (due_iff start now1) Hdue).
  destruct (GetNextStartTime (ResetStartTimeCache a1) (Add now2 Second))
    as [start2 a3]. simpl in *.
  unfold Before. destruct (bool_decide (start2 < Add now2 Second)); done.
Qed.

(** The scenario: at 5s the loop fires A and puts it back behind C, with its
    next start at 10s. *)
Lemma loopBody_fires_due_head_witness :
  (loopBody schedAC (5 * Second) (5 * Second) 0).1.1 = LoopTop
  ∧ dispatches (loopBody schedAC (5 * Second) (5 * Second) 0).2
    = [stamped planABC 0 itemA].
Proof.
  destruct (loopBody_fires_due_head schedAC (5 * Second) (5 * Second) 0
              (stamped planABC 0 itemA) [stamped planABC 0 itemC])
    as (Hpc & Hgo & _).
  - reflexivity.
  - by vm_compute.
  - split; [exact Hpc|exact Hgo].
Defined.

Example fire_A :
  (λ a, (ActionsID a, stCache a))
    <$> queue (loopBody schedAC (5 * Second) (5 * Second) 0).1.2
  = [("C", Some (10 * Second)); ("A", Some (10 * Second))].
Proof. vm_compute. reflexivity. Qed.

(** The scenario: at 1s the loop fires B and drops it. *)
Example fire_B :
  ActionsID <$> queue (loopBody (withStarted true schedABC) Second Second 0).1.2
  = ["A"; "C"]
  ∧ ActionsID <$> dispatches (loopBody (withStarted true schedABC) Second Second 0).2
    = ["B"].
Proof. split; vm_compute; reflexivity. Qed.

(** ** Storage failures during a reload *)

Lemma drainLoop_stops pre r post :
  drainStops r = true →
  drainLoop (((λ t, (Some t, None)) <$> pre) ++ r :: post) = (pre, post).
Proof.
  intros Hr. induction pre as [|t pre IH].
  - by destruct r as [[?|] [?|]].
  - rewrite fmap_cons. cbn [app drainLoop]. by rewrite IH.
Qed.

Lemma drainLoop_exhausted pre :
  drainLoop ((λ t, (Some t, None)) <$> pre) = (pre, []).
Proof.
  induction pre as [|t pre IH]; [done|].
  rewrite fmap_cons. cbn [drainLoop]. by rewrite IH.
Qed.

(** The drain, pop by pop: lines 139-142. *)
Lemma drainTasks_PopTask st :
  drainTasks st
  = match PopTask st with
    | ((Some task, None), st') => (task :: (drainTasks st').1, (drainTasks st').2)
    | (_, st') => ([], st')
    end.
Proof.
  unfold drainTasks, PopTask. destruct st as [answers plans]. simpl.
  destruct answers as [|[[task|] [e|]] rest]; simpl; try done.
  by destruct (drainLoop rest).
Qed.

Lemma taskDispatches_app l1 l2 :
  taskDispatches (l1 ++ l2) = taskDispatches l1 ++ taskDispatches l2.
Proof. apply omap_app. Qed.

Lemma warnings_app l1 l2 : warnings (l1 ++ l2) = warnings l1 ++ warnings l2.
Proof. apply omap_app. Qed.

Lemma scanItem_taskDispatches clock plan acc at0 :
  taskDispatches acc.2 = [] → taskDispatches (scanItem clock plan acc at0).2 = [].
Proof.
  destruct acc as [[q tick] log]. simpl. intros Hlog.
  destruct (Timing at0).
  - destruct (IsASAP at0); [done|].
    destruct (GetNextStartTime at0 (clock tick)) as [start at1].
    by destruct (Before start (clock tick)).
  - cbn [snd]. by rewrite taskDispatches_app, Hlog.
Qed.

Lemma foldl_scanPlan_taskDispatches clock plans acc :
  taskDispatches acc.2 = [] →
  taskDispatches (foldl (scanPlan clock) acc plans).2 = [].
Proof.
  revert acc. induction plans as [|p plans IH]; intros acc Hacc; [done|].
  simpl. apply IH. destruct p as [plan|]; [|done]. simpl.
  revert acc Hacc. induction (ActionTimings plan) as [|at0 l IHl];
    intros acc Hacc; [done|].
  simpl. by apply IHl, scanItem_taskDispatches.
Qed.

Lemma taskDispatches_go tasks : taskDispatches (GoExecuteTask <$> tasks) = tasks.
Proof.
  unfold taskDispatches. induction tasks as [|t tasks IH]; simpl; [done|].
  f_equal. exact IH.
Qed.

Lemma warnings_go tasks : warnings (GoExecuteTask <$> tasks) = [].
Proof. unfold warnings. by induction tasks. Qed.

(** The tasks a reload hands to goroutines are those of the drain. *)
Lemma loadActionPlans_tasks clock s :
  taskDispatches (loadActionPlans clock s).2 = (drainTasks (storage s)).1
  ∧ storage (loadActionPlans clock s).1 = (drainTasks (storage s)).2.
Proof.
  unfold loadActionPlans.
  destruct (drainTasks (storage s)) as [tasks st1].
  destruct (GetAllActionPlans st1) as [plans err].
  pose proof (foldl_scanPlan_taskDispatches clock plans ([], 0%nat, [])) as Hlog.
  destruct (foldl (scanPlan clock) ([], 0%nat, []) plans) as [[q tick] log].
  cbn -[app taskDispatches] in *. split; [|done].
  rewrite !taskDispatches_app, Hlog, taskDispatches_go by done.
  destruct err as [e|]; simpl; [destruct (isNotFound e)|]; simpl;
    by rewrite app_nil_r.
Qed.

(** A reload whose storage answers [GetAllActionPlans] with an error. *)
Lemma loadActionPlans_error clock s e :
  plansAnswer (storage s) = inr e →
  queue (loadActionPlans clock s).1 = []
  ∧ warnings (loadActionPlans clock s).2
    = if isNotFound e then [] else [MsgCannotGetPlans e].
Proof.
  intros He. unfold loadActionPlans.
  pose proof (drainTasks_plans (storage s)) as Hplans.
  destruct (drainTasks (storage s)) as [tasks st1]. simpl in Hplans.
  rewrite Hplans. unfold GetAllActionPlans. rewrite He. simpl.
  split; [done|].
  rewrite warnings_app, warnings_go. simpl. by destruct (isNotFound e).
Qed.

(** C8, the claim as it stands, at a storage that answers
    [GetAllActionPlans] with the not-found error: the reload logs no
    warning, the error is not logged. *)
Lemma reload_not_found_not_logged :
  plansAnswer (storage schedNotFound) = inr ErrNotFound
  ∧ MsgCannotGetPlans ErrNotFound ∉ warnings (loadActionPlans clock0 schedNotFound).2.
Proof. split; [reflexivity|]. vm_compute. by intros ?%elem_of_nil. Qed.

(** C8, amended.  A reload is a total function of the scheduler, whatever
    the storage answers.  When [GetAllActionPlans] answers with an error the
    rebuilt queue is empty, and the error is logged as a warning unless it
    is the not-found error, which is not logged.  The drain stops at the
    first answer of [PopTask] that carries an error (not-found or any other)
    or no task: the tasks handed to goroutines are exactly those popped
    before it, and the answers after it are left in the storage. *)
Theorem reload_survives_storage_failures :
  (∀ clock s e,
     plansAnswer (storage s) = inr e →
     queue (loadActionPlans clock s).1 = []
     ∧ warnings (loadActionPlans clock s).2
       = if isNotFound e then [] else [MsgCannotGetPlans e])
  ∧ (∀ clock s pre r post,
       popAnswers (storage s) = ((λ t, (Some t, None)) <$> pre) ++ r :: post →
       drainStops r = true →
       taskDispatches (loadActionPlans clock s).2 = pre
       ∧ popAnswers (storage (loadActionPlans clock s).1) = post).
Proof.
  split; [apply loadActionPlans_error|].
  intros clock s pre r post Hpop Hr.
  destruct (loadActionPlans_tasks clock s) as [-> ->].
  unfold drainTasks. rewrite Hpop, drainLoop_stops by done. done.
Qed.

Lemma reload_survives_storage_failures_witness :
  (queue (loadActionPlans clock0 schedNotFound).1 = []
   ∧ warnings (loadActionPlans clock0 schedNotFound).2 = [])
  ∧ (taskDispatches (loadActionPlans clock0 schedNotFound).2 = [task1; task2]
     ∧ popAnswers (storage (loadActionPlans clock0 schedNotFound).1)
       = [(Some task3, None)]).
Proof.
  split.
  - apply (proj1 reload_survives_storage_failures clock0 schedNotFound ErrNotFound).
    reflexivity.
  - apply (proj2 reload_survives_storage_failures clock0 schedNotFound
             [task1; task2] (None, Some (ErrOther "timeout")) [(Some task3, None)]).
    + reflexivity.
    + reflexivity.
Defined.

(** ** The permits of the drain *)

Lemma drainRun_inv d d' : drainRun d = Some d' → drainInv d → drainInv d'.
Proof.
  unfold drainRun, drainInv. intros Hrun [Hlen Hcap].
  destruct (drainPC d) as [|task|task|] eqn:Hpc; simpl in *.
  - destruct (PopTask (drainStorage d)) as [[[task|] [e|]] st];
      injection Hrun as <-; simpl; split; lia.
  - case_bool_decide; [|done]. injection Hrun as <-. simpl. split; lia.
  - injection Hrun as <-. simpl. rewrite length_app. simpl. split; lia.
  - done.
Qed.

Lemma drainFinish_inv i d d' : drainFinish i d = Some d' → drainInv d → drainInv d'.
Proof.
  unfold drainFinish, drainInv. intros Hfin [Hlen Hcap].
  destruct (inFlight d !! i) as [t|] eqn:Hi; [|done].
  destruct (limit d) as [|n] eqn:Hl; [done|]. injection Hfin as <-. simpl.
  apply lookup_lt_Some in Hi. rewrite length_delete by eauto using lookup_lt_is_Some_2.
  split; lia.
Qed.

Lemma drainStep_inv d d' : drainStep d d' → drainInv d → drainInv d'.
Proof.
  intros [? ? Hrun|i ? ? Hfin]; [by eapply drainRun_inv|by eapply drainFinish_inv].
Qed.

Lemma drain_reachable_inv st d : rtc drainStep (drainStart st) d → drainInv d.
Proof.
  revert d. apply (rtc_ind_r (R := drainStep) drainInv).
  - unfold drainInv, limitCap. simpl. lia.
  - intros d1 d2 _ Hstep IH. by eapply drainStep_inv.
Qed.

(** C9.  In every state the drain of a reload can reach, whatever the
    backlog of the storage and however the goroutines are scheduled, at
    most ten tasks are in flight: a task is in flight from line 144, after
    the caller put a value into [limit] at line 143, until its goroutine
    takes a value back at line 147, and [limit] holds ten values at most. *)
Theorem drain_at_most_ten_in_flight st d :
  rtc drainStep (drainStart st) d → (length (inFlight d) ≤ limitCap)%nat.
Proof. intros [Hlen Hcap]%drain_reachable_inv. lia. Qed.

Ltac drain_run_step :=
  eapply rtc_l; [apply drain_run; vm_compute; reflexivity|].

Lemma drainFull_reachable : rtc drainStep (drainStart storageBacklog) drainFull.
Proof. do 31 drain_run_step. apply rtc_refl. Qed.

Lemma drain_at_most_ten_in_flight_witness :
  (length (inFlight drainFull) ≤ limitCap)%nat.
Proof.
  apply (drain_at_most_ten_in_flight storageBacklog drainFull).
  apply drainFull_reachable.
Defined.

(** With ten tasks in flight the caller stays in the send of line 143 until
    a goroutine ends. *)
Example drainFull_blocked :
  length (inFlight drainFull) = 10%nat ∧ drainRun drainFull = None
  ∧ is_Some (drainFinish 0 drainFull).
Proof. split_and!; [reflexivity..|]. by eexists. Qed.

(** ** Shutdown *)

Lemma loopFromEmptyTest_empty s now1 now2 nowS :
  queue s = [] → loopFromEmptyTest s now1 now2 nowS = (LoopParked, s, []).
Proof. intros Hq. unfold loopFromEmptyTest. by rewrite Hq. Qed.

(** A value received in the empty-queue loop sends the goroutine back to the
    test of line 87, not to the test of the flag. *)
Lemma step_parkedOnEmpty sys sys' : step sys sys' → parkedOnEmpty sys → parkedOnEmpty sys'.
Proof.
  intros Hstep (Hq & Hpc & Hctl & Hflag).
  destruct Hstep as [? ? ? ? ? Hmove|? ? Hmove|? ? Hctlstep].
  - unfold loopMove in Hmove. by rewrite Hpc in Hmove.
  - unfold timerMove, loopTimer in Hmove. by rewrite Hpc in Hmove.
  - destruct Hctlstep as [clock ? ? Hrun|? ? ? ? ? Hhand].
    + unfold ctlRun in Hrun. destruct (ctlPC sys) eqn:Hc; try done;
        injection Hrun as <-; split_and!; try done; simpl; intros _;
        by apply Hflag.
    + unfold handoff in Hhand. rewrite Hpc in Hhand. simpl in Hhand.
      rewrite loopFromEmptyTest_empty in Hhand by done.
      destruct (ctlPC sys) eqn:Hc; try done; simpl in Hhand;
        injection Hhand as <-; split_and!; try done; simpl; intros _;
        by apply Hflag.
Qed.

Lemma rtc_parkedOnEmpty sys sys' :
  rtc step sys sys' → parkedOnEmpty sys → parkedOnEmpty sys'.
Proof. induction 1; eauto using step_parkedOnEmpty. Qed.

(** C1.  The loop parked on the empty queue, and [Shutdown] called: in every
    state the two goroutines can reach from there, the loop is in the
    receive of line 88 again, also once [Shutdown] has cleared the flag,
    handed over its signal and returned.  The hand-off of line 203 wakes the
    loop, the test of line 87 finds the queue still empty, and the flag of
    line 84 is never read: the loop does not return. *)
Theorem shutdown_leaves_parked_loop_parked s tr sys :
  queue s = [] →
  rtc step (mkSystem s LoopParked CtlShutdown tr) sys →
  loopPC sys = LoopParked
  ∧ (ctlPC sys = CtlReturned → schedulerStarted (sched sys) = false).
Proof.
  intros Hq Hrtc. apply rtc_parkedOnEmpty in Hrtc as (_ & Hpc & _ & Hflag).
  - split; [done|]. intros Hret. apply Hflag. by rewrite Hret.
  - by split_and!.
Qed.

Lemma sysParkedAfterShutdown_reachable :
  rtc step sysParkedShutdown sysParkedAfterShutdown.
Proof.
  eapply rtc_l; [apply step_ctl, (ctl_run clock0); vm_compute; reflexivity|].
  eapply rtc_l; [apply step_ctl, (ctl_handoff 0 0 0); vm_compute; reflexivity|].
  eapply rtc_l; [apply step_ctl, (ctl_run clock0); vm_compute; reflexivity|].
  apply rtc_refl.
Qed.

(** [Shutdown] has returned, the flag is cleared, and the loop is parked. *)
Lemma shutdown_leaves_parked_loop_parked_witness :
  loopPC sysParkedAfterShutdown = LoopParked
  ∧ (ctlPC sysParkedAfterShutdown = CtlReturned
     → schedulerStarted (sched sysParkedAfterShutdown) = false).
Proof.
  apply (shutdown_leaves_parked_loop_parked
           (withStarted true (newSchedulerLiteral (mkStorage [] (inl []))))
           [] sysParkedAfterShutdown).
  - reflexivity.
  - apply sysParkedAfterShutdown_reachable.
Defined.

(** In the select of line 116 the same hand-off does end the loop: the
    goroutine goes to the top of the outer loop, reads the cleared flag and
    leaves. *)
Lemma shutdown_ends_waiting_loop s id tr now1 now2 nowS :
  schedulerStarted s = false →
  handoff now1 now2 nowS (mkSystem s (LoopWaiting id) CtlShutdownSend tr)
  = Some (mkSystem s LoopTop CtlShutdownStop (tr ++ []))
  ∧ ∀ c tr', loopMove now1 now2 nowS (mkSystem s LoopTop c tr')
             = Some (mkSystem s LoopExited c (tr' ++ [])).
Proof.
  intros Hflag. split; [done|]. intros c tr'.
  unfold loopMove, loopRun, loopFromTop. simpl. by rewrite Hflag.
Qed.

(** Once the loop has left, it takes no further step. *)
Lemma exited_is_final sys sys' :
  loopPC sys = LoopExited → step sys sys' → loopPC sys' = LoopExited.
Proof.
  intros Hpc Hstep. destruct Hstep as [? ? ? ? ? Hmove|? ? Hmove|? ? Hctlstep].
  - unfold loopMove in Hmove. by rewrite Hpc in Hmove.
  - unfold timerMove, loopTimer in Hmove. by rewrite Hpc in Hmove.
  - destruct Hctlstep as [clock ? ? Hrun|? ? ? ? ? Hhand].
    + unfold ctlRun in Hrun. destruct (ctlPC sys); try done;
        try (injection Hrun as <-; done).
      destruct (loadActionPlans clock (sched sys)). by injection Hrun as <-.
    + unfold handoff in Hhand. rewrite Hpc in Hhand. simpl in Hhand.
      by destruct (afterSend (ctlPC sys)).
Qed.

(** ** The wake signal of a reload *)

Lemma ctlStep_send_inv sys sys' :
  ctlPC sys = CtlRestartSend → ctlStep sys sys' →
  ∃ now1 now2 nowS pc s log,
    loopReceive (loopPC sys) (sched sys) now1 now2 nowS = Some (pc, s, log)
    ∧ sys' = mkSystem s pc CtlRestartStop (trace sys ++ log).
Proof.
  intros Hc Hstep. destruct Hstep as [clock ? ? Hrun|now1 now2 nowS ? ? Hhand].
  - unfold ctlRun in Hrun. by rewrite Hc in Hrun.
  - unfold handoff in Hhand. rewrite Hc in Hhand. simpl in Hhand.
    destruct (loopReceive (loopPC sys) (sched sys) now1 now2 nowS)
      as [[[pc s] log]|] eqn:Hrecv; [|done].
    injection Hhand as <-. by exists now1, now2, nowS, pc, s, log.
Qed.

Lemma loopReceive_receiving pc s now1 now2 nowS :
  is_Some (loopReceive pc s now1 now2 nowS) ↔ receiving pc = true.
Proof.
  destruct pc; simpl; split; try done; try (by intros [? ?]); by eexists.
Qed.

(** C7, the claim as it stands, at the loop of the scenario between two
    iterations (it is not in a receive) and a reload in its send: the reload
    has no step, it is blocked in the send of line 187. *)
Lemma reload_blocks_while_loop_runs :
  receiving (loopPC sysReloadDuringFiring) = false
  ∧ ctlPC sysReloadDuringFiring = CtlRestartSend
  ∧ ¬ ∃ sys', ctlStep sysReloadDuringFiring sys'.
Proof.
  split_and!; [reflexivity..|]. intros [sys' Hstep].
  apply ctlStep_send_inv in Hstep as (? & ? & ? & ? & ? & ? & Hrecv & _); [|done].
  discriminate Hrecv.
Qed.

(** C7, amended.  The wake signal is handed over without buffer and never
    queued.  A reload that stands in the send of line 187 gets on exactly
    when the loop is in one of its receives (parked on the empty queue, or in
    the select on the deadline), and only in a step in which the loop takes
    the signal.  While the loop is anywhere else, in a FIRING iteration for
    one, the reload is blocked in the send: the loop goes on with its next
    pass on the scheduler that holds the rebuilt queue, and the reload is
    still in the send after it. *)
Theorem restart_send_is_handoff sys :
  ctlPC sys = CtlRestartSend →
  ((∃ sys', ctlStep sys sys') ↔ receiving (loopPC sys) = true)
  ∧ (∀ sys', ctlStep sys sys' →
       ∃ now1 now2 nowS pc s log,
         loopReceive (loopPC sys) (sched sys) now1 now2 nowS = Some (pc, s, log)
         ∧ sys' = mkSystem s pc CtlRestartStop (trace sys ++ log))
  ∧ (∀ now1 now2 nowS sys', loopMove now1 now2 nowS sys = Some sys' →
       ∃ pc s log,
         loopRun (loopPC sys) (sched sys) now1 now2 nowS = Some (pc, s, log)
         ∧ sys' = mkSystem s pc CtlRestartSend (trace sys ++ log)).
Proof.
  intros Hc. split_and!.
  - split.
    + intros [sys' Hstep].
      apply ctlStep_send_inv in Hstep as (n1 & n2 & nS & ? & ? & ? & Hrecv & _);
        [|done].
      apply (loopReceive_receiving _ (sched sys) n1 n2 nS). eauto.
    + intros Hrecv.
      apply (loopReceive_receiving _ (sched sys) 0 0 0) in Hrecv
        as [[[pc s] log] Hrecv].
      exists (mkSystem s pc CtlRestartStop (trace sys ++ log)).
      apply (ctl_handoff 0 0 0). unfold handoff. by rewrite Hc, Hrecv.
  - intros sys'. by apply ctlStep_send_inv.
  - intros now1 now2 nowS sys' Hmove. unfold loopMove in Hmove.
    destruct (loopRun (loopPC sys) (sched sys) now1 now2 nowS)
      as [[[pc s] log]|]; [|done].
    injection Hmove as <-. rewrite Hc. by exists pc, s, log.
Qed.

(** The loop of the scenario is in the select for A: the reload hands its
    signal over. *)
Lemma restart_send_is_handoff_witness :
  (∃ sys', ctlStep sysReloadDuringWait sys')
  ↔ receiving (loopPC sysReloadDuringWait) = true.
Proof.
  apply (restart_send_is_handoff sysReloadDuringWait). reflexivity.
Defined.

(** A reload of a scheduler whose loop was not started sends nothing. *)
Lemma restart_not_started clock sys :
  ctlPC sys = CtlRestartTest → schedulerStarted (sched sys) = false →
  ctlRun clock sys = Some (mkSystem (sched sys) (loopPC sys) CtlRestartStop (trace sys)).
Proof. intros Hc Hflag. unfold ctlRun. by rewrite Hc, Hflag. Qed.

(** The queue a reload has rebuilt is the one the loop works on at its next
    pass, whether or not the signal was handed over. *)
Lemma reload_rebuild_seen clock sys sys' :
  ctlPC sys = CtlReload → ctlRun clock sys = Some sys' →
  queue (sched sys') = queue (loadActionPlans clock (sched sys)).1
  ∧ loopPC sys' = loopPC sys ∧ ctlPC sys' = CtlRestartTest.
Proof.
  intros Hc Hrun. unfold ctlRun in Hrun. rewrite Hc in Hrun.
  destruct (loadActionPlans clock (sched sys)) as [s log].
  by injection Hrun as <-.
Qed.

(** ** The scenario, end to end *)

(** The loop starts at the origin on the queue B, A, C: it arms the timer for
    the second that is left until B; the timer fires; at 1s it fires B and
    drops it; at its next pass it arms the timer for the four seconds that
    are left until A. *)
Example scenario_loop :
  let '(pc, s, log) :=
    Loop [Proceed 0 0 0; Proceed 0 0 0; Expire;
          Proceed Second Second Second; Proceed Second Second Second]
      LoopEntry schedABC in
  pc = LoopWaiting "A"
  ∧ ActionsID <$> queue s = ["A"; "C"]
  ∧ timer s = Some (NewTimer (4 * Second))
  ∧ ActionsID <$> dispatches log = ["B"].
Proof. vm_compute. by split_and!. Qed.

(** A reload that arrives during the wait for A ends the wait at once. *)
Example scenario_interrupt :
  (Loop [Signal 0 0 0] (LoopWaiting "A") schedAC).1.1 = LoopTop.
Proof. reflexivity. Qed.

(** * Further properties of the code *)

(** ** The pruning and the order of the map iteration *)

Section PruneOrder.

Variables (now interval : Z).

Lemma foldl_pruneEntryStep_order l (ts : gmap Z bool) :
  rangeOrder l ts →
  foldl (pruneEntryStep now interval) (Some ts) l = prunedSet now interval ts.
Proof.
  intros [Hnd Hl]. rewrite foldl_pruneEntryStep_Some; [|done|by intros t ?%Hl].
  unfold prunedSet. cbn zeta.
  assert (keptAfter now interval l ts
          = filter (λ kv, ¬ stale now interval kv.1) ts) as ->.
  { unfold keptAfter. apply map_filter_ext. intros k x Hk. simpl.
    assert (k ∈ l) by (apply Hl; eauto). naive_solver. }
  apply decide_ext. split; intros [HK HE]; (split; [done|]).
  - intros ->. apply Exists_exists in HE as (t & Ht & _).
    apply Hl in Ht as [x Ht]. by rewrite lookup_empty in Ht.
  - apply map_choose in HE as (k & x & Hk).
    apply Exists_exists. exists k. split; [apply Hl; eauto|].
    destruct (decide (stale now interval k)) as [|Hn]; [done|].
    assert (filter (λ kv, ¬ stale now interval kv.1) ts !! k = Some x) as Hc
      by by apply map_lookup_filter_Some.
    by rewrite HK, lookup_empty in Hc.
Qed.

Lemma foldl_pruneKind_order stamps l (m : gmap string (gmap Z bool)) k :
  NoDup l →
  (∀ a ts, a ∈ l → m !! a = Some ts → rangeOrder (stamps a) ts) →
  foldl (λ m aType, foldl (pruneTimestamp now interval aType) m (stamps aType)) m l !! k
  = if decide (k ∈ l) then m !! k ≫= prunedSet now interval else m !! k.
Proof.
  intros Hnd. revert m. induction Hnd as [|a l Ha Hnd IH]; intros m Hst; simpl.
  { done. }
  rewrite IH.
  - destruct (decide (k = a)) as [->|Hka].
    + rewrite decide_False by done.
      rewrite (decide_True (P := a ∈ a :: l)) by by left.
      rewrite foldl_pruneTimestamp_same.
      destruct (m !! a) as [ts|] eqn:Hma; simpl.
      * apply foldl_pruneEntryStep_order, (Hst a); [by left|done].
      * apply foldl_pruneEntryStep_None.
    + rewrite foldl_pruneTimestamp_other by done.
      apply decide_ext. rewrite elem_of_cons. naive_solver.
  - intros b ts Hb Hmb. apply (Hst b); [by right|].
    rewrite foldl_pruneTimestamp_other in Hmb; [done|]. by intros ->.
Qed.

End PruneOrder.

(** X1.  The result of the two pruning loops does not depend on the order in
    which the [range]s visit the kinds and the timestamps: whatever order Go
    picks, the window is left as [pruneStats] leaves it. *)
Theorem pruneStats_any_order now interval kinds stamps (m : gmap string (gmap Z bool)) :
  rangeOrder kinds m →
  (∀ a ts, m !! a = Some ts → rangeOrder (stamps a) ts) →
  pruneStatsIn now interval kinds stamps m = pruneStats now interval m.
Proof.
  intros [Hnd Hk] Hst. rewrite pruneStats_prunedWindow.
  apply map_eq; intros k. unfold pruneStatsIn, prunedWindow.
  rewrite (foldl_pruneKind_order now interval stamps kinds m k Hnd)
    by (intros a ts _; apply Hst).
  rewrite lookup_omap. case_decide as Hin; [done|].
  rewrite Hk in Hin. apply eq_None_not_Some in Hin. by rewrite Hin.
Qed.

Ltac solve_rangeOrder :=
  split;
  [ rewrite ?NoDup_cons, ?NoDup_nil, ?elem_of_cons, ?elem_of_nil; naive_solver
  | intros ?;
    rewrite ?elem_of_cons, ?elem_of_nil,
      ?lookup_insert_is_Some, ?lookup_singleton_is_Some; naive_solver ].

Lemma pruneStats_any_order_witness :
  pruneStatsIn 120 50 ["*topup"; "*log"]
    (λ a, if decide (a = "*log") then [100; 1] else [100]) windowSample
  = pruneStats 120 50 windowSample.
Proof.
  apply (pruneStats_any_order 120 50 ["*topup"; "*log"]
           (λ a, if decide (a = "*log") then [100; 1] else [100]) windowSample).
  - unfold windowSample. solve_rangeOrder.
  - intros a ts. unfold windowSample. intros Ha.
    apply lookup_insert_Some in Ha as [[<- <-]|[_ Ha]].
    + rewrite decide_True by done. solve_rangeOrder.
    + apply lookup_singleton_Some in Ha as [<- <-].
      rewrite decide_False by done. solve_rangeOrder.
Defined.

(** ** Pruning twice *)

Lemma Sub_mono now now' t : now ≤ now' → Sub now t ≤ Sub now' t.
Proof.
  intros Hle. unfold Sub, maxDuration, minDuration.
  repeat case_bool_decide; lia.
Qed.

Lemma stale_mono now now' interval t :
  now ≤ now' → stale now interval t → stale now' interval t.
Proof. unfold stale. intros Hle Hst. pose proof (Sub_mono now now' t Hle). lia. Qed.

Lemma prunedSet_compose now now' interval (ts : gmap Z bool) :
  now ≤ now' →
  prunedSet now interval ts ≫= prunedSet now' interval = prunedSet now' interval ts.
Proof.
  intros Hle.
  assert (filter (λ kv, ¬ stale now' interval kv.1)
            (filter (λ kv : Z * bool, ¬ stale now interval kv.1) ts)
          = filter (λ kv, ¬ stale now' interval kv.1) ts) as Hff.
  { apply map_eq; intros k; apply option_eq; intros x.
    rewrite !map_lookup_filter_Some. simpl.
    pose proof (stale_mono now now' interval k Hle). naive_solver. }
  assert (ts = ∅ → filter (λ kv : Z * bool, ¬ stale now interval kv.1) ts = ∅) as Hemp.
  { intros ->. apply map_filter_empty. }
  unfold prunedSet. cbn zeta.
  destruct (decide (filter (λ kv : Z * bool, ¬ stale now interval kv.1) ts = ∅
                    ∧ ts ≠ ∅)) as [[HK Hne]|Hd]; simpl.
  - rewrite decide_True; [done|]. split; [|done].
    by rewrite <- Hff, HK, map_filter_empty.
  - rewrite Hff. apply decide_ext.
    split; intros [HK' Hne]; (split; [done|]); naive_solver.
Qed.

Lemma prunedWindow_compose now now' interval (w : gmap string (gmap Z bool)) :
  now ≤ now' →
  prunedWindow now' interval (prunedWindow now interval w) = prunedWindow now' interval w.
Proof.
  intros Hle. apply map_eq; intros k. unfold prunedWindow. rewrite !lookup_omap.
  destruct (w !! k) as [ts|]; simpl; [|done]. by apply prunedSet_compose.
Qed.

(** X2.  Two calls of the record operation without action, the second no
    earlier than the first, leave the selected window as the second call
    alone would: pruning is monotonic in time, and doing it again at the same
    instant changes nothing. *)
Theorem updateActStats_prune_twice s isFailed now now' :
  mutexFree (selectedMux isFailed s) = true →
  now ≤ now' →
  selectedStats isFailed
    (exitSched (updateActStats (exitSched (updateActStats s None isFailed now))
                  None isFailed now'))
  = selectedStats isFailed (exitSched (updateActStats s None isFailed now')).
Proof.
  intros Hfree Hle.
  assert (mutexFree (selectedMux isFailed (exitSched (updateActStats s None isFailed now)))
          = true) as Hfree'.
  { destruct (updateActStats_mutex_fields s None isFailed now) as [HS HF].
    unfold selectedMux in *. destruct isFailed; by rewrite ?HS, ?HF. }
  rewrite (updateActStats_prune_only _ isFailed now' Hfree').
  rewrite !(updateActStats_prune_only s isFailed _ Hfree).
  assert (actStatsInterval (exitSched (updateActStats s None isFailed now))
          = actStatsInterval s) as ->.
  { unfold updateActStats. rewrite (Lock_free _ Hfree). by destruct isFailed. }
  destruct (selectedStats isFailed s) as [w|]; simpl; [|done].
  by rewrite prunedWindow_compose.
Qed.

Lemma updateActStats_prune_twice_witness :
  selectedStats false
    (exitSched (updateActStats (exitSched (updateActStats schedStats None false 120))
                  None false 151))
  = selectedStats false (exitSched (updateActStats schedStats None false 151)).
Proof.
  apply (updateActStats_prune_twice schedStats false 120 151); [reflexivity|lia].
Defined.

(** The sample window: at 120 the execution at 1 is pruned, at 151 all are,
    and both kinds are gone. *)
Example prune_sample :
  selectedStats false (exitSched (updateActStats schedStats None false 120))
  = Some {[ "*log" := {[ 100 := true ]}; "*topup" := {[ 100 := true ]} ]}
  ∧ selectedStats false (exitSched (updateActStats schedStats None false 151))
    = Some ∅.
Proof. split; vm_compute; reflexivity. Qed.

(** ** What a recording call leaves in the window *)

Lemma windowHas_Some (m : gmap string (gmap Z bool)) k t :
  windowHas (Some m) k t ↔ ∃ ts, m !! k = Some ts ∧ is_Some (ts !! t).
Proof.
  unfold windowHas. split.
  - intros (m' & ts & [= <-] & ? & ?). eauto.
  - intros (ts & ? & ?). eauto.
Qed.

Lemma windowHas_pruned now interval (m : gmap string (gmap Z bool)) k t :
  windowHas (Some (prunedWindow now interval m)) k t
  ↔ windowHas (Some m) k t ∧ ¬ stale now interval t.
Proof.
  rewrite !windowHas_Some. split.
  - intros (ts' & (ts & Hk & -> & _)%prunedWindow_Some & [x Hx]).
    apply map_lookup_filter_Some in Hx as [Hx Hf]. eauto.
  - intros [(ts & Hk & [x Hx]) Hf].
    destruct (prunedWindow_keeps now interval m k ts t x Hk Hx Hf) as (ts' & ? & ?).
    eauto.
Qed.

Lemma windowHas_insertStat now a (m : gmap string (gmap Z bool)) k t :
  windowHas (Some (insertStat now a m)) k t
  ↔ (k = a ∧ t = now) ∨ windowHas (Some m) k t.
Proof.
  rewrite !windowHas_Some. destruct (decide (k = a)) as [->|Hne].
  - rewrite insertStat_same. split.
    + intros (ts & [= <-] & [x Hx]).
      apply lookup_insert_Some in Hx as [[<- _]|[_ Hx]]; [by left|]. right.
      destruct (m !! a) as [ts|]; simpl in Hx; [eauto|by rewrite lookup_empty in Hx].
    + intros [[_ ->]|(ts & Hts & [x Hx])].
      * eexists. split; [done|]. rewrite lookup_insert_eq. eauto.
      * eexists. split; [done|]. rewrite Hts. simpl.
        destruct (decide (now = t)) as [->|]; [rewrite lookup_insert_eq; eauto|].
        rewrite lookup_insert_ne by done. eauto.
  - rewrite insertStat_other by done. naive_solver.
Qed.

(** X3.  A call with an action, on a free lock and an allocated window,
    leaves in the window exactly these timestamps: [now] under the kind of
    the action, and the timestamps that were there and are not older than the
    retention interval, each under its kind. *)
Theorem updateActStats_record_contents s a isFailed now m k t :
  mutexFree (selectedMux isFailed s) = true →
  selectedStats isFailed s = Some m →
  windowHas (selectedStats isFailed (exitSched (updateActStats s (Some a) isFailed now))) k t
  ↔ (k = ActionType a ∧ t = now)
    ∨ (windowHas (Some m) k t ∧ ¬ stale now (actStatsInterval s) t).
Proof.
  intros Hfree Hm.
  destruct (updateActStats_record s a isFailed now m Hfree Hm) as (_ & _ & ->).
  by rewrite windowHas_insertStat, windowHas_pruned.
Qed.

Lemma updateActStats_record_contents_witness :
  windowHas (selectedStats false
               (exitSched (updateActStats schedStats (Some (mkAction "*topup")) false 120)))
    "*topup" 120
  ↔ ("*topup" = ActionType (mkAction "*topup") ∧ 120 = 120)
    ∨ (windowHas (Some windowSample) "*topup" 120
       ∧ ¬ stale 120 (actStatsInterval schedStats) 120).
Proof.
  apply (updateActStats_record_contents schedStats (mkAction "*topup") false 120
           windowSample "*topup" 120); reflexivity.
Defined.

(** X4.  After a call of the record operation, with or without action, on a
    free lock and with a retention interval that is not negative, no
    timestamp of the selected window is older than the retention interval. *)
Theorem updateActStats_leaves_no_stale s act isFailed now k t :
  mutexFree (selectedMux isFailed s) = true →
  0 ≤ actStatsInterval s →
  windowHas (selectedStats isFailed (exitSched (updateActStats s act isFailed now))) k t →
  ¬ stale now (actStatsInterval s) t.
Proof.
  intros Hfree Hint (m' & ts & Hm' & Hk & Ht).
  destruct (selectedStats isFailed s) as [m|] eqn:Hm.
  - by eapply (updateActStats_fresh s act isFailed now m m' k ts t).
  - exfalso. revert Hm'. unfold updateActStats.
    rewrite (Lock_free _ Hfree), Hm. simpl.
    destruct act; simpl; by rewrite selectedStats_with.
Qed.

Lemma updateActStats_leaves_no_stale_witness : ¬ stale 120 50 100.
Proof.
  apply (updateActStats_leaves_no_stale schedStats None false 120 "*log" 100).
  - reflexivity.
  - vm_compute. discriminate.
  - exists {[ "*log" := {[ 100 := true ]}; "*topup" := {[ 100 := true ]} ]},
      {[ 100 := true ]}.
    split_and!; [vm_compute; reflexivity|reflexivity|by eexists].
Defined.

(** X5.  The record operation keeps the window free of kinds without
    timestamp: when no kind of the selected window has an empty set before
    the call, none has after it. *)
Theorem updateActStats_keeps_no_empty_kind s act isFailed now m m' :
  mutexFree (selectedMux isFailed s) = true →
  selectedStats isFailed s = Some m →
  noEmptyKind m →
  selectedStats isFailed (exitSched (updateActStats s act isFailed now)) = Some m' →
  noEmptyKind m'.
Proof.
  intros Hfree Hm Hne Hm'.
  assert (noEmptyKind (prunedWindow now (actStatsInterval s) m)) as Hpr.
  { intros k ts' (ts & Hk & -> & Himp)%prunedWindow_Some He.
    by apply (Hne k ts), Himp. }
  destruct act as [a|].
  - destruct (updateActStats_record s a isFailed now m Hfree Hm) as (_ & _ & Hrec).
    rewrite Hrec in Hm'. injection Hm' as <-. intros k ts Hk.
    destruct (decide (k = ActionType a)) as [->|Hka].
    + rewrite insertStat_same in Hk. injection Hk as <-.
      apply insert_non_empty.
    + rewrite insertStat_other in Hk by done. by apply (Hpr k).
  - rewrite (updateActStats_prune_only s isFailed now Hfree), Hm in Hm'.
    by injection Hm' as <-.
Qed.

Lemma updateActStats_keeps_no_empty_kind_witness :
  noEmptyKind {[ "*log" := ({[ 100 := true ]} : gmap Z bool);
                 "*topup" := {[ 100 := true ]} ]}.
Proof.
  apply (updateActStats_keeps_no_empty_kind schedStats None false 120 windowSample).
  - reflexivity.
  - reflexivity.
  - intros k ts. unfold windowSample. intros Hk.
    apply lookup_insert_Some in Hk as [[_ <-]|[_ Hk]]; [apply insert_non_empty|].
    apply lookup_singleton_Some in Hk as [_ <-]. apply insert_non_empty.
  - vm_compute. reflexivity.
Defined.

(** X6.  The record operation locks and unlocks a copy of the mutex, never
    the mutex of the scheduler: after any call, whatever its action and
    however it ended, a further call on either window finds its lock as free
    as it was and does not block. *)
Theorem updateActStats_never_blocks_next s act isFailed now act' isFailed' now' :
  mutexFree (selectedMux isFailed' s) = true →
  exitHow (updateActStats (exitSched (updateActStats s act isFailed now))
             act' isFailed' now') ≠ Blocked.
Proof.
  intros Hfree.
  destruct (updateActStats_mutex_fields s act isFailed now) as [HS HF].
  assert (mutexFree (selectedMux isFailed' (exitSched (updateActStats s act isFailed now)))
          = true) as Hfree'.
  { unfold selectedMux in *. destruct isFailed'; by rewrite ?HS, ?HF. }
  unfold updateActStats at 1. rewrite (Lock_free _ Hfree').
  destruct act'; [|done].
  destruct (pruneStats _ _ <$> _); [|done]. by destruct (Unlock _).
Qed.

Lemma updateActStats_never_blocks_next_witness :
  exitHow (updateActStats (exitSched (updateActStats schedStats None false 120))
             (Some (mkAction "*log")) false 121) ≠ Blocked.
Proof.
  apply (updateActStats_never_blocks_next schedStats None false 120
           (Some (mkAction "*log")) false 121).
  reflexivity.
Defined.

(** ** The drain of a reload *)

Lemma drainLoop_shape answers :
  (answers = (λ t, (Some t, None)) <$> (drainLoop answers).1
   ∧ (drainLoop answers).2 = [])
  ∨ ∃ r, drainStops r = true
         ∧ answers = ((λ t, (Some t, None)) <$> (drainLoop answers).1)
                     ++ r :: (drainLoop answers).2.
Proof.
  induction answers as [|[[task|] [e|]] rest IH]; simpl;
    try (right; eexists; split; [|reflexivity]; done).
  - by left.
  - destruct (drainLoop rest) as [tasks unread]. simpl in *.
    destruct IH as [[-> ->]|(r & Hr & ->)]; [by left|].
    right. exists r. by split.
Qed.

(** X7.  The drain of a reload hands to goroutines exactly the tasks the
    storage yields before its first answer with an error or without task, in
    that order, each once; it consumes that answer and leaves the later ones
    in the storage.  A storage that only has tasks is emptied. *)
Theorem reload_drains_leading_tasks clock s :
  let tasks := taskDispatches (loadActionPlans clock s).2 in
  let unread := popAnswers (storage (loadActionPlans clock s).1) in
  (popAnswers (storage s) = (λ t, (Some t, None)) <$> tasks ∧ unread = [])
  ∨ ∃ r, drainStops r = true
         ∧ popAnswers (storage s) = ((λ t, (Some t, None)) <$> tasks) ++ r :: unread.
Proof.
  destruct (loadActionPlans_tasks clock s) as [Ht Hs]. cbn zeta.
  rewrite Ht, Hs. unfold drainTasks.
  pose proof (drainLoop_shape (popAnswers (storage s))) as Hshape.
  by destruct (drainLoop (popAnswers (storage s))) as [tasks unread].
Qed.

(** ** What the rebuild keeps *)

Lemma scanItem_grows clock plan acc at0 x :
  x ∈ acc.1.1 → x ∈ (scanItem clock plan acc at0).1.1.
Proof.
  destruct acc as [[q tick] log]. simpl. intros Hx.
  destruct (Timing at0); [|done]. destruct (IsASAP at0); [done|].
  destruct (GetNextStartTime at0 (clock tick)) as [start at1].
  destruct (Before start (clock tick)); [done|]. simpl. set_solver.
Qed.

Lemma foldl_scanItem_grows clock plan l acc x :
  x ∈ acc.1.1 → x ∈ (foldl (scanItem clock plan) acc l).1.1.
Proof.
  revert acc. induction l as [|at0 l IH]; intros acc Hx; [done|].
  simpl. by apply IH, scanItem_grows.
Qed.

Lemma foldl_scanPlan_grows clock plans acc x :
  x ∈ acc.1.1 → x ∈ (foldl (scanPlan clock) acc plans).1.1.
Proof.
  revert acc. induction plans as [|p plans IH]; intros acc Hx; [done|].
  simpl. apply IH. destruct p; [|done]. by apply foldl_scanItem_grows.
Qed.

Lemma scanItem_queues clock plan acc at0 :
  admissible (clock acc.1.2) at0 →
  stamped plan (clock acc.1.2) at0 ∈ (scanItem clock plan acc at0).1.1.
Proof.
  destruct acc as [[q tick] log]. simpl. intros (Ht & Ha & Hs).
  unfold stamped, resolvedNextStart in *.
  destruct (Timing at0); [|done]. rewrite Ha.
  destruct (GetNextStartTime at0 (clock tick)) as [start at1]. simpl in *.
  rewrite (proj2 (Before_false start (clock tick))) by lia.
  simpl. set_solver.
Qed.

Lemma foldl_scanItem_queues clock plan l acc at0 :
  at0 ∈ l → (∀ k, admissible (clock k) at0) →
  ∃ k, stamped plan (clock k) at0 ∈ (foldl (scanItem clock plan) acc l).1.1.
Proof.
  intros Hin Hadm. revert acc. induction l as [|b l IH]; intros acc.
  { by apply elem_of_nil in Hin. }
  apply elem_of_cons in Hin as [<-|Hin]; simpl.
  - exists acc.1.2. apply foldl_scanItem_grows, scanItem_queues, Hadm.
  - by apply IH.
Qed.

Lemma foldl_scanPlan_queues clock plans acc plan at0 :
  Some plan ∈ plans → at0 ∈ ActionTimings plan →
  (∀ k, admissible (clock k) at0) →
  ∃ k, stamped plan (clock k) at0 ∈ (foldl (scanPlan clock) acc plans).1.1.
Proof.
  intros Hin Hat Hadm. revert acc. induction plans as [|p plans IH]; intros acc.
  { by apply elem_of_nil in Hin. }
  apply elem_of_cons in Hin as [<-|Hin]; simpl.
  - destruct (foldl_scanItem_queues clock plan (ActionTimings plan) acc at0 Hat Hadm)
      as [k Hk].
    exists k. by apply foldl_scanPlan_grows.
  - by apply IH.
Qed.

(** X8.  The rebuild loses no item it should keep: an item of a plan the
    storage returned that has a descriptor, is not ASAP and is not stale at
    any reading of the clock is in the rebuilt queue, stamped. *)
Theorem rebuild_keeps_admissible clock s plan at0 :
  Some plan ∈ (GetAllActionPlans (storage s)).1 →
  at0 ∈ ActionTimings plan →
  (∀ k, admissible (clock k) at0) →
  ∃ k, stamped plan (clock k) at0 ∈ queue (loadActionPlans clock s).1.
Proof.
  intros Hplan Hat Hadm. unfold loadActionPlans.
  pose proof (drainTasks_plans (storage s)) as Hplans.
  destruct (drainTasks (storage s)) as [tasks st1]. simpl in Hplans.
  rewrite Hplans. destruct (GetAllActionPlans (storage s)) as [plans err].
  destruct (foldl_scanPlan_queues clock plans ([], 0%nat, []) plan at0 Hplan Hat Hadm)
    as [k Hk].
  destruct (foldl (scanPlan clock) ([], 0%nat, []) plans) as [[q tick] log].
  exists k. simpl in *. by apply sortQueue_elem_of.
Qed.

Lemma itemB_admissible k : admissible (clock0 k) itemB.
Proof. split_and!; [done|done|]. vm_compute. discriminate. Qed.

Lemma rebuild_keeps_admissible_witness :
  ∃ k, stamped planABC (clock0 k) itemB
       ∈ queue (loadActionPlans clock0 (newSchedulerLiteral storageABC)).1.
Proof.
  apply (rebuild_keeps_admissible clock0 (newSchedulerLiteral storageABC) planABC itemB).
  - apply list_elem_of_here.
  - apply list_elem_of_further, list_elem_of_here.
  - apply itemB_admissible.
Defined.

(** X9.  A rebuild replaces the queue and does not merge: the queue it
    leaves, the storage it leaves and what it logs and starts are the same
    for two schedulers with the same storage, whatever their queues; and it
    leaves the timer, the flag, the retention interval, the stats windows and
    their locks as they were. *)
Theorem rebuild_replaces_queue clock s s' :
  storage s = storage s' →
  queue (loadActionPlans clock s).1 = queue (loadActionPlans clock s').1
  ∧ storage (loadActionPlans clock s).1 = storage (loadActionPlans clock s').1
  ∧ (loadActionPlans clock s).2 = (loadActionPlans clock s').2
  ∧ timer (loadActionPlans clock s).1 = timer s
  ∧ schedulerStarted (loadActionPlans clock s).1 = schedulerStarted s
  ∧ actStatsInterval (loadActionPlans clock s).1 = actStatsInterval s
  ∧ actSuccessStats (loadActionPlans clock s).1 = actSuccessStats s
  ∧ actFailedStats (loadActionPlans clock s).1 = actFailedStats s.
Proof.
  intros Hst.
  destruct (loadActionPlans_fields clock s) as (? & ? & ? & _ & _ & ? & ?).
  split_and!; try done; unfold loadActionPlans; rewrite <- Hst;
    destruct (drainTasks (storage s)) as [tasks st1];
    destruct (GetAllActionPlans st1) as [plans err];
    by destruct (foldl (scanPlan clock) ([], 0%nat, []) plans) as [[q tick] log].
Qed.

Lemma rebuild_replaces_queue_witness :
  queue (loadActionPlans clock0 schedABC).1
  = queue (loadActionPlans clock0 schedAC).1.
Proof.
  apply (rebuild_replaces_queue clock0 schedABC schedAC). reflexivity.
Defined.

(** ** A reload while no loop runs *)

(** X10.  A reload of a scheduler whose flag is not set gets through without
    any step of the loop: it rebuilds, skips the send, stops the timer if
    there is one, and returns.  This is the reload [NewScheduler] runs. *)
Theorem reload_without_loop_returns clock sys :
  ctlPC sys = CtlReload →
  schedulerStarted (sched sys) = false →
  ∃ sys1 sys2,
    ctlRun clock sys = Some sys1
    ∧ ctlRun clock sys1 = Some sys2
    ∧ ctlRun clock sys2
      = Some (mkSystem (stopTimer (loadActionPlans clock (sched sys)).1) (loopPC sys)
                CtlReturned (trace sys ++ (loadActionPlans clock (sched sys)).2)).
Proof.
  intros Hc Hflag.
  destruct (loadActionPlans_fields clock (sched sys)) as (_ & Hst & _).
  unfold ctlRun at 1. rewrite Hc.
  destruct (loadActionPlans clock (sched sys)) as [s log] eqn:Hload.
  simpl in Hst. eexists _, _. split; [reflexivity|].
  unfold ctlRun. simpl. rewrite Hst, Hflag. split; reflexivity.
Qed.

Lemma reload_without_loop_returns_witness :
  ∃ sys1 sys2,
    ctlRun clock0 (mkSystem (newSchedulerLiteral storageABC) LoopEntry CtlReload [])
    = Some sys1
    ∧ ctlRun clock0 sys1 = Some sys2
    ∧ ctlRun clock0 sys2
      = Some (mkSystem (NewScheduler clock0 storageABC).1 LoopEntry CtlReturned
                ([] ++ (NewScheduler clock0 storageABC).2)).
Proof.
  apply (reload_without_loop_returns clock0
           (mkSystem (newSchedulerLiteral storageABC) LoopEntry CtlReload []));
    reflexivity.
Defined.

(** ** The drain machine *)

(** X11.  The drain cannot get stuck while there is work: in every state it
    can reach, either the caller has left the loop, no task is in flight and
    every value has been taken back from [limit], or a step is possible.  A
    caller held up in the send on the full channel is released by the end of
    any of the ten goroutines in flight. *)
Theorem drain_never_stuck st d :
  rtc drainStep (drainStart st) d →
  (drainPC d = DrainOver ∧ inFlight d = [] ∧ limit d = 0%nat)
  ∨ ∃ d', drainStep d d'.
Proof.
  intros [Hlen Hcap]%drain_reachable_inv.
  assert (inFlight d ≠ [] → ∃ d', drainStep d d') as Hfin.
  { intros Hne. destruct (inFlight d) as [|t l] eqn:Hfl; [done|].
    destruct (limit d) as [|n] eqn:Hl; [simpl in Hlen; lia|].
    eexists. apply (drain_finish 0). unfold drainFinish. by rewrite Hfl, Hl. }
  destruct (drainPC d) as [|task|task|] eqn:Hpc; simpl in Hlen.
  - right. unfold drainRun.
    destruct (PopTask (drainStorage d)) as [[[task|] [e|]] st'] eqn:Hpop;
      eexists; apply drain_run; unfold drainRun; rewrite Hpc, Hpop; reflexivity.
  - right. destruct (decide (limit d < limitCap)%nat) as [Hlt|Hge].
    + eexists. apply drain_run. unfold drainRun. rewrite Hpc.
      by rewrite bool_decide_eq_true_2.
    + apply Hfin. intros Hnil. rewrite Hnil in Hlen. simpl in Hlen.
      unfold limitCap in *. lia.
  - right. eexists. apply drain_run. unfold drainRun. by rewrite Hpc.
  - destruct (inFlight d) as [|t l] eqn:Hfl.
    + left. simpl in Hlen. split_and!; [done..|lia].
    + right. by apply Hfin.
Qed.

Lemma drain_never_stuck_witness :
  (drainPC drainFull = DrainOver ∧ inFlight drainFull = [] ∧ limit drainFull = 0%nat)
  ∨ ∃ d', drainStep drainFull d'.
Proof.
  apply (drain_never_stuck storageBacklog drainFull). apply drainFull_reachable.
Defined.

Lemma drainUnread_step d d' : drainStep d d' → drainUnread d' = drainUnread d.
Proof.
  intros Hstep. inversion Hstep as [? ? Hrun|i ? ? Hfin]; subst.
  - unfold drainRun in Hrun. unfold drainUnread at 2.
    destruct (drainPC d) as [|task|task|] eqn:Hpc.
    + rewrite drainTasks_PopTask.
      destruct (PopTask (drainStorage d)) as [[[task|] [e|]] st'];
        by injection Hrun as <-.
    + case_bool_decide; [|done]. by injection Hrun as <-.
    + by injection Hrun as <-.
    + done.
  - unfold drainFinish in Hfin.
    destruct (inFlight d !! i); [|done]. destruct (limit d); [done|].
    injection Hfin as <-. done.
Qed.

(** X12.  The drain with its permits pops what the drain without them pops:
    when the caller has left the loop, however the goroutines were
    scheduled in between, the storage is the one [loadActionPlans] goes on
    with. *)
Theorem drain_leaves_storage_of_drainTasks st d :
  rtc drainStep (drainStart st) d →
  drainPC d = DrainOver →
  drainStorage d = (drainTasks st).2.
Proof.
  intros Hrtc Hover.
  assert (drainUnread d = drainUnread (drainStart st)) as Hinv.
  { clear Hover. revert d Hrtc. apply (rtc_ind_r (R := drainStep)); [done|].
    intros d1 d2 _ Hstep IH. by rewrite (drainUnread_step d1 d2 Hstep). }
  unfold drainUnread in Hinv. by rewrite Hover in Hinv.
Qed.

Lemma drainLeft_reachable : rtc drainStep (drainStart storageNotFound) drainLeft.
Proof. do 7 drain_run_step. apply rtc_refl. Qed.

Lemma drain_leaves_storage_of_drainTasks_witness :
  drainStorage drainLeft = (drainTasks storageNotFound).2.
Proof.
  apply (drain_leaves_storage_of_drainTasks storageNotFound drainLeft).
  - apply drainLeft_reachable.
  - reflexivity.
Defined.

(** ** The loop: waiting and firing *)

Lemma GetNextStartTime_memoized at0 now :
  is_Some (stCache at0) → (GetNextStartTime at0 now).2 = at0.
Proof. intros [t Ht]. unfold GetNextStartTime. by rewrite Ht. Qed.

Lemma GetNextStartTime_again at0 now :
  GetNextStartTime (GetNextStartTime at0 now).2 now = GetNextStartTime at0 now.
Proof.
  destruct at0 as [id tm a c ids pid]. unfold GetNextStartTime. simpl.
  destruct c; [done|]. by destruct tm.
Qed.

Lemma GetNextStartTime_ActionsID at0 now :
  ActionsID (GetNextStartTime at0 now).2 = ActionsID at0.
Proof.
  unfold GetNextStartTime. destruct (stCache at0); [done|]. by destruct (Timing at0).
Qed.

Lemma Sub_pos t u : u < t → 0 < Sub t u.
Proof. intros Hlt. unfold Sub, maxDuration, minDuration. repeat case_bool_decide; lia. Qed.

(** The branch of lines 111-122. *)
Lemma loopBody_wait s now1 now2 nowS a0 rest :
  queue s = a0 :: rest →
  now1 < resolvedNextStart now1 a0 →
  loopBody s now1 now2 nowS
  = (LoopWaiting (ActionsID a0),
     withTimer (Some (NewTimer (Sub (resolvedNextStart now1 a0) now1)))
       (withQueue ((GetNextStartTime a0 now1).2 :: rest) s),
     [Info (MsgQueueLength (length (queue s))); Info (MsgAction (ActionsID a0));
      Info (MsgTimeToNext (ActionsID a0) (Sub (resolvedNextStart now1 a0) now1))]).
Proof.
  intros Hq Hlate. unfold loopBody. rewrite Hq.
  pose proof (GetNextStartTime_again a0 now1) as Hagain.
  unfold resolvedNextStart in *.
  destruct (GetNextStartTime a0 now1) as [start a1]. simpl in *.
  assert (Equal start now1 || Before start now1 = false) as ->.
  { apply not_true_is_false. rewrite due_iff. lia. }
  by rewrite Hagain.
Qed.

(** X13.  An iteration that finds the head of the queue due after its
    reading [now1] of the clock starts no goroutine: it memoizes the next
    start in the head, leaves the rest of the queue as it is, arms a new
    timer for the time that is left (a positive duration), and waits in the
    select. *)
Theorem loopBody_waits_for_head s now1 now2 nowS a0 rest :
  queue s = a0 :: rest →
  now1 < resolvedNextStart now1 a0 →
  (loopBody s now1 now2 nowS).1.1 = LoopWaiting (ActionsID a0)
  ∧ dispatches (loopBody s now1 now2 nowS).2 = []
  ∧ queue (loopBody s now1 now2 nowS).1.2 = (GetNextStartTime a0 now1).2 :: rest
  ∧ timer (loopBody s now1 now2 nowS).1.2
    = Some (NewTimer (Sub (resolvedNextStart now1 a0) now1))
  ∧ 0 < Sub (resolvedNextStart now1 a0) now1.
Proof.
  intros Hq Hlate.
  rewrite (loopBody_wait s now1 now2 nowS a0 rest Hq Hlate). simpl.
  split_and!; try done.
  by apply Sub_pos.
Qed.

Lemma loopBody_waits_for_head_witness :
  (loopBody schedAC Second Second 0).1.1 = LoopWaiting "A"
  ∧ dispatches (loopBody schedAC Second Second 0).2 = []
  ∧ timer (loopBody schedAC Second Second 0).1.2 = Some (NewTimer (4 * Second)).
Proof.
  destruct (loopBody_waits_for_head schedAC Second Second 0
              (stamped planABC 0 itemA) [stamped planABC 0 itemC])
    as (Hpc & Hgo & _ & Htimer & _).
  - reflexivity.
  - by vm_compute.
  - split_and!; [exact Hpc|exact Hgo|exact Htimer].
Defined.

Lemma dispatches_app l1 l2 : dispatches (l1 ++ l2) = dispatches l1 ++ dispatches l2.
Proof. apply omap_app. Qed.











Lemma sysFire_step : step sysFire sysFired.
Proof. apply (step_loop (5 * Second) (5 * Second) 0). reflexivity. Qed.


(** ** The loop and the contents of the queue *)

Lemma sortQueue_Permutation now q : sortQueue now q ≡ₚ q.
Proof. apply merge_sort_Permutation. Qed.

(** X15.  An iteration of the loop adds no item to the queue: the
    identifiers of the queue it leaves are, with their multiplicities, among
    those of the queue it found.  Only a reload puts items in. *)
Theorem loopBody_adds_no_item s now1 now2 nowS :
  ActionsID <$> queue (loopBody s now1 now2 nowS).1.2 ⊆+ ActionsID <$> queue s.
Proof.
  unfold loopBody. destruct (queue s) as [|a0 rest] eqn:Hq.
  { simpl. by rewrite Hq. }
  pose proof (GetNextStartTime_ActionsID a0 now1) as Hid1.
  destruct (GetNextStartTime a0 now1) as [start a1]. simpl in Hid1.
  destruct (Equal start now1 || Before start now1).
  - pose proof (GetNextStartTime_ActionsID (ResetStartTimeCache a1) (Add now2 Second))
      as Hid3.
    destruct (GetNextStartTime (ResetStartTimeCache a1) (Add now2 Second))
      as [start2 a3]. simpl in Hid3.
    destruct (Before start2 (Add now2 Second)); simpl.
    + by apply submseteq_cons.
    + apply Permutation_submseteq.
      rewrite sortQueue_Permutation. unfold drop. rewrite fmap_app.
      change (ActionsID <$> [a3]) with [ActionsID a3].
      rewrite Hid3, Hid1. by rewrite <- Permutation_cons_append.
  - pose proof (GetNextStartTime_ActionsID a1 now1) as Hid2.
    destruct (GetNextStartTime a1 now1) as [next a2]. simpl in *.
    by rewrite Hid2, Hid1.
Qed.

(** ** The queue the loop works on *)

#[local] Instance dueOrder_trans now : Transitive (dueOrder now).
Proof. intros a b c. unfold dueOrder. lia. Qed.

Lemma dueOrder_memoized n n' a b :
  is_Some (stCache a) → is_Some (stCache b) → dueOrder n a b → dueOrder n' a b.
Proof.
  intros Ha Hb. unfold dueOrder.
  by rewrite (resolvedNextStart_cached n n' a), (resolvedNextStart_cached n n' b).
Qed.

Lemma Sorted_dueOrder_memoized n n' q :
  Forall itemOK q → Sorted (dueOrder n) q → Sorted (dueOrder n') q.
Proof.
  intros Hok Hs. induction Hs as [|a q Hs IH Hhd]; [constructor|].
  apply Forall_cons in Hok as [(_ & _ & Ha) Hq]. constructor; [by apply IH|].
  destruct Hhd as [|b q' Hab]; constructor.
  apply Forall_cons in Hq as [(_ & _ & Hb) _]. by apply (dueOrder_memoized n n').
Qed.

Lemma queueOK_ascending q now : queueOK q → ascending now q.
Proof.
  intros [Hok Hs]. by apply Sorted_ascending, (Sorted_dueOrder_memoized 0 now).
Qed.

Lemma queueOK_sortQueue now q : Forall itemOK q → queueOK (sortQueue now q).
Proof.
  intros Hok.
  assert (Forall itemOK (sortQueue now q)) as Hok'
    by by rewrite sortQueue_Permutation.
  split; [done|].
  apply (Sorted_dueOrder_memoized now 0); [done|apply sortQueue_Sorted].
Qed.

Lemma loadActionPlans_queueOK clock s : queueOK (queue (loadActionPlans clock s).1).
Proof.
  assert (Forall itemOK (queue (loadActionPlans clock s).1)) as Hok.
  { apply Forall_forall. intros x Hx.
    apply loadActionPlans_origin in Hx
      as (plan & at0 & k & _ & _ & (Ht & Ha & _) & ->).
    split_and!.
    - unfold stamped. simpl.
      unfold GetNextStartTime. destruct (stCache at0); [done|].
      by destruct (Timing at0).
    - unfold stamped, IsASAP in *. simpl.
      unfold GetNextStartTime. destruct (stCache at0); [done|].
      by destruct (Timing at0).
    - by apply stamped_cached. }
  split; [done|].
  destruct (loadActionPlans_Sorted clock s) as [nowS Hs].
  by apply (Sorted_dueOrder_memoized nowS 0).
Qed.

Lemma itemOK_refired a now1 ref :
  itemOK a →
  itemOK (GetNextStartTime (ResetStartTimeCache (GetNextStartTime a now1).2) ref).2.
Proof.
  intros (Ht & Ha & Hc). rewrite GetNextStartTime_reset.
  destruct a as [id tm asp c ids pid]. unfold itemOK, IsASAP in *. simpl in *.
  unfold GetNextStartTime. simpl. destruct tm; [|done]. simpl. by split_and!.
Qed.

Lemma loopBody_queueOK s now1 now2 nowS :
  queueOK (queue s) → queueOK (queue (loopBody s now1 now2 nowS).1.2).
Proof.
  intros [Hok Hs]. unfold loopBody. destruct (queue s) as [|a0 rest] eqn:Hq.
  { simpl. by rewrite Hq. }
  apply Forall_cons in Hok as [Ha0 Hrest].
  pose proof (itemOK_refired a0 now1 (Add now2 Second) Ha0) as Ha3.
  pose proof (GetNextStartTime_memoized a0 now1 (proj2 (proj2 Ha0))) as Hsame.
  destruct (GetNextStartTime a0 now1) as [start a1]. simpl in *. subst a1.
  destruct (Equal start now1 || Before start now1).
  - destruct (GetNextStartTime (ResetStartTimeCache a0) (Add now2 Second))
      as [start2 a3]. simpl in *.
    destruct (Before start2 (Add now2 Second)); simpl.
    + split; [done|]. by apply Sorted_inv in Hs as [? _].
    + apply queueOK_sortQueue, Forall_app. split; [done|]. by apply Forall_singleton.
  - pose proof (GetNextStartTime_memoized a0 now1 (proj2 (proj2 Ha0))) as Hsame.
    destruct (GetNextStartTime a0 now1) as [next a2]. simpl in *. subst a2.
    split; [by apply Forall_cons|done].
Qed.

Lemma loopFromEmptyTest_queueOK s now1 now2 nowS :
  queueOK (queue s) → queueOK (queue (loopFromEmptyTest s now1 now2 nowS).1.2).
Proof.
  unfold loopFromEmptyTest. case_bool_decide; [done|]. apply loopBody_queueOK.
Qed.

Lemma step_queueOK sys sys' :
  step sys sys' → queueOK (queue (sched sys)) → queueOK (queue (sched sys')).
Proof.
  intros Hstep Hok.
  inversion Hstep as [n1 n2 nS ? ? Hmove|? ? Hmove|? ? Hctl]; subst.
  - unfold loopMove in Hmove.
    destruct (loopPC sys); simpl in Hmove; try done.
    + by injection Hmove as <-.
    + pose proof (loopFromEmptyTest_queueOK (sched sys) n1 n2 nS Hok) as Hl.
      unfold loopFromTop in Hmove.
      destruct (negb (schedulerStarted (sched sys))); [by injection Hmove as <-|].
      destruct (loopFromEmptyTest (sched sys) n1 n2 nS) as [[pc s] log].
      by injection Hmove as <-.
  - unfold timerMove, loopTimer in Hmove.
    destruct (loopPC sys); try done. destruct (timer (sched sys)) as [t|]; [|done].
    destruct (timerStopped t); [done|]. by injection Hmove as <-.
  - inversion Hctl as [clock ? ? Hrun|m1 m2 mS ? ? Hhand]; subst.
    + unfold ctlRun in Hrun. destruct (ctlPC sys); try done;
        try (injection Hrun as <-; done).
      pose proof (loadActionPlans_queueOK clock (sched sys)) as Hl.
      destruct (loadActionPlans clock (sched sys)) as [s log].
      by injection Hrun as <-.
    + unfold handoff in Hhand. destruct (afterSend (ctlPC sys)); [|done].
      destruct (loopPC sys); simpl in Hhand; try done.
      * pose proof (loopFromEmptyTest_queueOK (sched sys) m1 m2 mS Hok) as Hl.
        destruct (loopFromEmptyTest (sched sys) m1 m2 mS) as [[pc s] log].
        by injection Hhand as <-.
      * by injection Hhand as <-.
Qed.

(** X16.  The queue stays as a rebuild leaves it through every step of the
    loop and of a reload or shutdown: every item has a descriptor, is not
    ASAP and has its next start memoized, and the queue is ascending in next
    start.  It holds of the empty queue a scheduler starts with, hence in
    every state the two goroutines can reach. *)
Theorem queue_stays_ordered sys sys' :
  rtc step sys sys' →
  queueOK (queue (sched sys)) →
  Forall itemOK (queue (sched sys')) ∧ ∀ now, ascending now (queue (sched sys')).
Proof.
  intros Hrtc Hok.
  assert (queueOK (queue (sched sys'))) as Hok'.
  { induction Hrtc; eauto using step_queueOK. }
  split; [apply Hok'|]. intros now. by apply queueOK_ascending.
Qed.

Lemma queue_stays_ordered_witness :
  Forall itemOK (queue (sched sysFired)) ∧ ∀ now, ascending now (queue (sched sysFired)).
Proof.
  apply (queue_stays_ordered sysFire sysFired).
  - apply rtc_once, sysFire_step.
  - split.
    + repeat (apply Forall_cons; split; [split_and!; [done|done|by eexists]|]).
      apply Forall_nil_2.
    + repeat constructor. by vm_compute.
Defined.

(** X17.  When the loop goes to wait for the head of an ordered queue, no
    item of the queue is due: every next start is after the reading of the
    clock the loop took. *)
Theorem waiting_means_nothing_due s now1 now2 nowS id x :
  queueOK (queue s) →
  (loopBody s now1 now2 nowS).1.1 = LoopWaiting id →
  x ∈ queue s →
  now1 < resolvedNextStart now1 x.
Proof.
  intros [Hok Hs] Hpc Hx. unfold loopBody in Hpc.
  destruct (queue s) as [|a0 rest] eqn:Hq; [done|].
  assert (now1 < resolvedNextStart now1 a0) as Hhead.
  { unfold resolvedNextStart.
    pose proof (due_iff (GetNextStartTime a0 now1).1 now1) as Hdue.
    destruct (GetNextStartTime a0 now1) as [start a1]. simpl in *.
    destruct (Equal start now1 || Before start now1) eqn:Hd.
    - destruct (GetNextStartTime (ResetStartTimeCache a1) (Add now2 Second))
        as [start2 a3].
      by destruct (Before start2 (Add now2 Second)).
    - destruct (decide (start ≤ now1)) as [Hle|]; [|lia].
      apply Hdue in Hle. congruence. }
  apply elem_of_cons in Hx as [->|Hx]; [done|].
  apply Sorted_StronglySorted in Hs; [|apply _].
  apply StronglySorted_inv in Hs as [_ Hall].
  rewrite Forall_forall in Hall. specialize (Hall x Hx).
  apply Forall_cons in Hok as [(_ & _ & Ha0) Hrest].
  rewrite Forall_forall in Hrest. destruct (Hrest x Hx) as (_ & _ & Hcx).
  apply (dueOrder_memoized 0 now1) in Hall; [|done..].
  unfold dueOrder in Hall. lia.
Qed.

Lemma schedAC_queueOK : queueOK (queue schedAC).
Proof.
  split.
  - repeat (apply Forall_cons; split; [split_and!; [done|done|by eexists]|]).
    apply Forall_nil_2.
  - repeat constructor. by vm_compute.
Qed.

Lemma waiting_means_nothing_due_witness :
  Second < resolvedNextStart Second (stamped planABC 0 itemC).
Proof.
  apply (waiting_means_nothing_due schedAC Second Second 0 "A"
           (stamped planABC 0 itemC)).
  - apply schedAC_queueOK.
  - reflexivity.
  - apply list_elem_of_further, list_elem_of_here.
Defined.

(** ** Shutdown and the loop in the select *)

Lemma step_windingDown sys sys' :
  step sys sys' → windingDown sys →
  windingDown sys' ∧ dispatches (trace sys') = dispatches (trace sys).
Proof.
  intros Hstep (Hflag & Hloop & Hctl).
  inversion Hstep as [n1 n2 nS ? ? Hmove|? ? Hmove|? ? Hctlstep]; subst.
  - unfold loopMove in Hmove.
    destruct (loopPC sys); simpl in Hmove; try done.
    unfold loopFromTop in Hmove. rewrite Hflag in Hmove. simpl in Hmove.
    injection Hmove as <-. simpl. by rewrite app_nil_r.
  - unfold timerMove, loopTimer in Hmove.
    destruct (loopPC sys); try done. destruct (timer (sched sys)) as [t|]; [|done].
    destruct (timerStopped t); [done|]. injection Hmove as <-. simpl.
    split; [done|]. by rewrite dispatches_app, app_nil_r.
  - inversion Hctlstep as [clock ? ? Hrun|m1 m2 mS ? ? Hhand]; subst.
    + unfold ctlRun in Hrun. destruct (ctlPC sys); try done;
        injection Hrun as <-; done.
    + unfold handoff in Hhand.
      destruct (ctlPC sys); try done; simpl in Hhand;
        destruct (loopPC sys); simpl in Hhand; try done;
        injection Hhand as <-; simpl; by rewrite app_nil_r.
Qed.

Lemma rtc_windingDown sys sys' :
  rtc step sys sys' → windingDown sys →
  windingDown sys' ∧ dispatches (trace sys') = dispatches (trace sys).
Proof.
  induction 1 as [|sys1 sys2 sys3 Hstep _ IH]; [done|].
  intros Hw. destruct (step_windingDown _ _ Hstep Hw) as [Hw2 Hd2].
  destruct (IH Hw2) as [Hw3 Hd3]. split; [done|]. by rewrite Hd3.
Qed.

(** X18.  [Shutdown] past line 202 and the loop in the select of line 116:
    from then on no action is dispatched, whatever the two goroutines do and
    whether the timer fires or the signal is handed over first, and the loop
    only wakes, reads the cleared flag and leaves; and there is a run in
    which the loop has left and [Shutdown] has returned. *)
Theorem shutdown_stops_waiting_loop sys id :
  schedulerStarted (sched sys) = false →
  loopPC sys = LoopWaiting id →
  ctlPC sys = CtlShutdownSend →
  (∀ sys', rtc step sys sys' →
     dispatches (trace sys') = dispatches (trace sys)
     ∧ loopLeaving (loopPC sys') = true)
  ∧ ∃ sys', rtc step sys sys' ∧ loopPC sys' = LoopExited ∧ ctlPC sys' = CtlReturned.
Proof.
  intros Hflag Hloop Hctl. split.
  - intros sys' Hrtc.
    destruct (rtc_windingDown sys sys' Hrtc) as [(_ & Hl & _) Hd]; [|done].
    unfold windingDown. by rewrite Hflag, Hloop, Hctl.
  - destruct sys as [s pc c tr]. simpl in *. subst pc c.
    exists (mkSystem (stopTimer s) LoopExited CtlReturned ((tr ++ []) ++ [])).
    split; [|done].
    eapply rtc_l; [apply step_ctl, (ctl_handoff 0 0 0); reflexivity|].
    eapply rtc_l.
    { apply (step_loop 0 0 0). unfold loopMove, loopRun, loopFromTop. simpl.
      rewrite Hflag. reflexivity. }
    eapply rtc_l; [apply step_ctl, (ctl_run clock0); reflexivity|].
    apply rtc_refl.
Qed.

Lemma shutdown_stops_waiting_loop_witness :
  ∃ sys', rtc step sysShutdownDuringWait sys'
          ∧ loopPC sys' = LoopExited ∧ ctlPC sys' = CtlReturned.
Proof.
  apply (shutdown_stops_waiting_loop sysShutdownDuringWait "A"); reflexivity.
Defined.

(** A loop that has left and a controller in a send: no step is possible. *)
Lemma exited_send_stuck sys :
  loopPC sys = LoopExited → is_Some (afterSend (ctlPC sys)) → ¬ ∃ sys', step sys sys'.
Proof.
  intros Hloop Hsend [sys' Hstep].
  inversion Hstep as [n1 n2 nS ? ? Hmove|? ? Hmove|? ? Hctlstep]; subst.
  - unfold loopMove in Hmove. by rewrite Hloop in Hmove.
  - unfold timerMove, loopTimer in Hmove. by rewrite Hloop in Hmove.
  - inversion Hctlstep as [clock ? ? Hrun|m1 m2 mS ? ? Hhand]; subst.
    + unfold ctlRun in Hrun. destruct (ctlPC sys); try done;
        by destruct Hsend.
    + unfold handoff in Hhand. rewrite Hloop in Hhand. simpl in Hhand.
      by destruct (afterSend (ctlPC sys)).
Qed.

Lemma step_exited_shutdown sys sys' :
  step sys sys' →
  loopPC sys = LoopExited ∧ (ctlPC sys = CtlShutdown ∨ ctlPC sys = CtlShutdownSend) →
  loopPC sys' = LoopExited ∧ (ctlPC sys' = CtlShutdown ∨ ctlPC sys' = CtlShutdownSend).
Proof.
  intros Hstep [Hl Hc]. split; [by eapply exited_is_final|].
  destruct Hc as [Hc|Hc].
  - inversion Hstep as [n1 n2 nS ? ? Hmove|? ? Hmove|? ? Hctlstep]; subst.
    + unfold loopMove in Hmove. by rewrite Hl in Hmove.
    + unfold timerMove, loopTimer in Hmove. by rewrite Hl in Hmove.
    + inversion Hctlstep as [clock ? ? Hrun|m1 m2 mS ? ? Hhand]; subst.
      * unfold ctlRun in Hrun. rewrite Hc in Hrun. injection Hrun as <-.
        by right.
      * unfold handoff in Hhand. by rewrite Hc in Hhand.
  - exfalso. apply (exited_send_stuck sys); [done| |by eexists].
    rewrite Hc. by eexists.
Qed.

(** X19.  [Shutdown] called when the loop has already left never returns:
    the send of line 203 is not guarded by the flag, and nobody receives. *)
Theorem shutdown_after_exit_never_returns sys sys' :
  loopPC sys = LoopExited →
  ctlPC sys = CtlShutdown →
  rtc step sys sys' →
  ctlPC sys' ≠ CtlReturned ∧ loopPC sys' = LoopExited.
Proof.
  intros Hloop Hctl Hrtc.
  assert (loopPC sys = LoopExited
          ∧ (ctlPC sys = CtlShutdown ∨ ctlPC sys = CtlShutdownSend)) as Hinv
    by (split; [done|by left]).
  clear Hloop Hctl.
  induction Hrtc as [|sys1 sys2 sys3 Hstep _ IH].
  - destruct Hinv as [? [Hc|Hc]]; by rewrite Hc.
  - by apply IH, (step_exited_shutdown sys1).
Qed.

Lemma shutdown_after_exit_never_returns_witness :
  ctlPC (mkSystem (withStarted false schedAC) LoopExited CtlShutdownSend [])
  ≠ CtlReturned
  ∧ loopPC (mkSystem (withStarted false schedAC) LoopExited CtlShutdownSend [])
    = LoopExited.
Proof.
  apply (shutdown_after_exit_never_returns sysShutdownAfterExit).
  - reflexivity.
  - reflexivity.
  - apply rtc_once, step_ctl, (ctl_run clock0). reflexivity.
Defined.

(** X20.  [Shutdown] can block for ever although the loop was waiting: when
    the timer fires after line 202 and before the hand-off of line 203, the
    loop wakes on the timer, reads the cleared flag and leaves, and the send
    of [Shutdown] finds nobody to receive. *)
Theorem shutdown_blocks_when_timer_wins sys id t :
  schedulerStarted (sched sys) = false →
  loopPC sys = LoopWaiting id →
  ctlPC sys = CtlShutdownSend →
  timer (sched sys) = Some t → timerStopped t = false →
  ∃ sys', rtc step sys sys'
          ∧ loopPC sys' = LoopExited ∧ ctlPC sys' = CtlShutdownSend
          ∧ ¬ ∃ sys'', step sys' sys''.
Proof.
  intros Hflag Hloop Hctl Htimer Hstop.
  destruct sys as [s pc c tr]. simpl in *. subst pc c.
  exists (mkSystem s LoopExited CtlShutdownSend
            ((tr ++ [Info (MsgTimeForAction id)]) ++ [])).
  split_and!; [|done|done|].
  - eapply rtc_l.
    { apply step_timer. unfold timerMove, loopTimer. simpl.
      rewrite Htimer, Hstop. reflexivity. }
    eapply rtc_l.
    { apply (step_loop 0 0 0). unfold loopMove, loopRun, loopFromTop. simpl.
      rewrite Hflag. reflexivity. }
    apply rtc_refl.
  - apply exited_send_stuck; [done|by eexists].
Qed.

Lemma shutdown_blocks_when_timer_wins_witness :
  ∃ sys', rtc step sysShutdownDuringWait sys'
          ∧ loopPC sys' = LoopExited ∧ ctlPC sys' = CtlShutdownSend
          ∧ ¬ ∃ sys'', step sys' sys''.
Proof.
  apply (shutdown_blocks_when_timer_wins sysShutdownDuringWait "A"
           (NewTimer (4 * Second))); reflexivity.
Defined.

(** ** A reload and the timer of the loop *)

(** X21.  A reload can stop the timer the loop has just armed.  The loop is
    in the select and takes the signal of the reload; before the reload
    reaches line 190 the loop makes its next pass, finds the head of the
    queue not yet due and arms a new timer, which is the one the reload then
    stops.  The reload has returned, and the loop waits in the select on a
    stopped timer: no step is left, the head will not fire when it is due
    unless another reload or a shutdown comes. *)
Theorem reload_can_stop_fresh_timer s id tr a0 rest now1 :
  schedulerStarted s = true →
  queue s = a0 :: rest →
  now1 < resolvedNextStart now1 a0 →
  ∃ sys', rtc step (mkSystem s (LoopWaiting id) CtlRestartSend tr) sys'
          ∧ loopPC sys' = LoopWaiting (ActionsID a0)
          ∧ ctlPC sys' = CtlReturned
          ∧ timer (sched sys')
            = Some (StopTimer (NewTimer (Sub (resolvedNextStart now1 a0) now1)))
          ∧ ¬ ∃ sys'', step sys' sys''.
Proof.
  intros Hflag Hq Hlate.
  pose proof (loopBody_wait s now1 now1 now1 a0 rest Hq Hlate) as Hbody.
  destruct (loopBody s now1 now1 now1) as [[pc s1] log] eqn:Hbody'.
  injection Hbody as -> Hs1 _.
  assert (timer s1 = Some (NewTimer (Sub (resolvedNextStart now1 a0) now1)))
    as Htimer by by rewrite Hs1.
  clear Hs1. rename Hbody' into Hbody.
  exists (mkSystem (stopTimer s1) (LoopWaiting (ActionsID a0)) CtlReturned
            ((tr ++ []) ++ log)).
  split_and!; [|done|done| |].
  - eapply rtc_l; [apply step_ctl, (ctl_handoff 0 0 0); reflexivity|].
    eapply rtc_l.
    { apply (step_loop now1 now1 now1). unfold loopMove, loopRun, loopFromTop.
      simpl. rewrite Hflag. simpl. unfold loopFromEmptyTest. rewrite Hq. simpl.
      rewrite Hbody. reflexivity. }
    eapply rtc_l; [apply step_ctl, (ctl_run clock0); reflexivity|].
    apply rtc_refl.
  - unfold stopTimer. simpl. by rewrite Htimer.
  - intros [sys'' Hstep].
    inversion Hstep as [n1 n2 nS ? ? Hmove|? ? Hmove|? ? Hctlstep]; subst.
    + done.
    + unfold timerMove, loopTimer in Hmove. simpl in Hmove.
      by rewrite Htimer in Hmove.
    + inversion Hctlstep as [clock ? ? Hrun|m1 m2 mS ? ? Hhand]; subst; done.
Qed.

Lemma reload_can_stop_fresh_timer_witness :
  ∃ sys', rtc step (mkSystem schedAC (LoopWaiting "A") CtlRestartSend []) sys'
          ∧ loopPC sys' = LoopWaiting (ActionsID (stamped planABC 0 itemA))
          ∧ ctlPC sys' = CtlReturned
          ∧ timer (sched sys')
            = Some (StopTimer (NewTimer
                (Sub (resolvedNextStart Second (stamped planABC 0 itemA)) Second)))
          ∧ ¬ ∃ sys'', step sys' sys''.
Proof.
  apply (reload_can_stop_fresh_timer schedAC "A" [] (stamped planABC 0 itemA)
           [stamped planABC 0 itemC] Second).
  - reflexivity.
  - reflexivity.
  - by vm_compute.
Defined.
